(** * smcPrime: deterministic primality testing on 32-bit and 64-bit words

    A shallow embedding of [smcprime.h].  Machine words are integers of [Z]
    kept in range by an explicit reduction modulo the word size.  The
    Montgomery primitives are written twice in the header, under
    [#if defined(__SIZEOF_INT128__)] and under [#else]; the embedding keeps
    both and selects one by a parameter.  Loops are fixpoints over an
    iteration budget: the width of the loop counter where that bounds the
    number of iterations, an argument for the open-ended scans of the
    navigation functions.  A strong Fermat round, and what is built on it,
    returns [None] where the C body takes a remainder modulo zero or does not
    terminate; the arithmetic helpers are total functions, whose value for a
    zero modulus has no counterpart in C. *)

From Stdlib Require Import ZArith Lia List Bool Znumtheory Zpow_facts.
From Stdlib Require Import Zmod.ZmodInv.
Import ListNotations.
Local Open Scope Z_scope.

(** ** Machine words *)

Definition u32 (x : Z) : Z := x mod 2 ^ 32.
Definition u64 (x : Z) : Z := x mod 2 ^ 64.
Definition u128 (x : Z) : Z := x mod 2 ^ 128.

Definition UINT64_MAX : Z := 2 ^ 64 - 1.

(** Results of functions that may be undefined on part of their domain. *)
Notation "x <- e ;; k" :=
  (match e with Some x => k | None => None end)
  (at level 61, e at next level, right associativity).
Notation "' ( x , y ) <- e ;; k" :=
  (match e with Some (x, y) => k | None => None end)
  (at level 61, x name, y name, e at next level, right associativity).

(** [while ((d & 1) == 0) { d >>= 1; s++; }] with a [uint32_t] counter [s].
    A nonzero word of [w] bits leaves the loop after at most [w - 1] shifts;
    on [d = 0] the loop never ends and the budget runs out. *)
Fixpoint odd_part (fuel : nat) (d s : Z) : option (Z * Z) :=
  if Z.land d 1 =? 0 then
    match fuel with
    | O => None
    | S k => odd_part k (Z.shiftr d 1) (u32 (s + 1))
    end
  else Some (d, s).

(** ** 32-bit primality testing *)

Module Prime32.

(** [(uint32_t)(((uint64_t)a * b) % m)]; the callers pass [m <> 0]. *)
Definition smc_mulmod32 (a b m : Z) : Z := u32 (u64 (a * b) mod m).

(** [while (b) { if (b & 1) r = ...; b >>= 1; if (b) a = ...; }] *)
Fixpoint powmod32_loop (fuel : nat) (r a b m : Z) : option Z :=
  if b =? 0 then Some r
  else
    match fuel with
    | O => None
    | S k =>
        let r := if Z.land b 1 =? 0 then r else smc_mulmod32 r a m in
        let b := Z.shiftr b 1 in
        let a := if b =? 0 then a else smc_mulmod32 a a m in
        powmod32_loop k r a b m
    end.

Definition smc_powmod32 (a b m : Z) : option Z :=
  powmod32_loop 32 1 (a mod m) b m.

(** [for (uint32_t r = 1; r < s; r++) { ... }] of [smc_sprp32]. *)
Fixpoint sprp32_loop (fuel : nat) (r s x n : Z) : option bool :=
  if r <? s then
    match fuel with
    | O => None
    | S k =>
        let x := smc_mulmod32 x x n in
        if x =? u32 (n - 1) then Some true
        else if x =? 1 then Some false
        else sprp32_loop k (u32 (r + 1)) s x n
    end
  else Some false.

(** [a % n] with [n = 0] is undefined. *)
Definition smc_sprp32 (n a : Z) : option bool :=
  if n =? 0 then None
  else if a mod n =? 0 then Some true
  else
    '(d, s) <- odd_part 32 (u32 (n - 1)) 0 ;;
    x <- smc_powmod32 a d n ;;
    if (x =? 1) || (x =? u32 (n - 1)) then Some true
    else sprp32_loop 32 1 s x n.

Definition smc_is_prime32 (n : Z) : option bool :=
  if n <? 2 then Some false
  else if n =? 2 then Some true
  else if Z.land n 1 =? 0 then Some false
  else if n <? 9 then Some true
  else if n mod 3 =? 0 then Some false
  else if n mod 5 =? 0 then Some false
  else if n mod 7 =? 0 then Some false
  else if n =? 3215031751 then Some false
  else
    b2 <- smc_sprp32 n 2 ;;
    if b2 then
      b7 <- smc_sprp32 n 7 ;;
      if b7 then smc_sprp32 n 61 else Some false
    else Some false.

(** [while (!smc_is_prime32(n)) { n += 2; if (n < 2) return 0; }] *)
Fixpoint next_prime32_loop (fuel : nat) (n : Z) : option Z :=
  p <- smc_is_prime32 n ;;
  if p then Some n
  else
    match fuel with
    | O => None
    | S k =>
        let n := u32 (n + 2) in
        if n <? 2 then Some 0 else next_prime32_loop k n
    end.

Definition smc_next_prime32 (fuel : nat) (n : Z) : option Z :=
  if n <=? 2 then Some 2
  else if n =? 3 then Some 3
  else
    let n := if Z.land n 1 =? 0 then u32 (n + 1) else n in
    next_prime32_loop fuel n.

(** [while (!smc_is_prime32(n)) { if (n < 3) return 2; n -= 2; }] *)
Fixpoint prev_prime32_loop (fuel : nat) (n : Z) : option Z :=
  p <- smc_is_prime32 n ;;
  if p then Some n
  else if n <? 3 then Some 2
  else
    match fuel with
    | O => None
    | S k => prev_prime32_loop k (u32 (n - 2))
    end.

Definition smc_prev_prime32 (fuel : nat) (n : Z) : option Z :=
  if n <? 2 then Some 0
  else if n =? 2 then Some 2
  else
    let n := if Z.land n 1 =? 0 then u32 (n - 1) else n in
    prev_prime32_loop fuel n.

End Prime32.

(** ** 64-bit primality testing (Montgomery arithmetic) *)

(** The branch of [#if defined(__SIZEOF_INT128__)] a build takes: the
    compiler's 128-bit type, or the emulation with 32-bit halves. *)
Inductive wide_arith : Set := Int128 | Emulated.

(** Prime inverses mod 2^64 for trial division (primes 3 to 331) *)
Definition SMC_PRIME_INV64 : list Z :=
  [ 0xAAAAAAAAAAAAAAAB; 0xCCCCCCCCCCCCCCCD; 0x6DB6DB6DB6DB6DB7; 0x2E8BA2E8BA2E8BA3;
    0x4EC4EC4EC4EC4EC5; 0xF0F0F0F0F0F0F0F1; 0x86BCA1AF286BCA1B; 0xD37A6F4DE9BD37A7;
    0x34F72C234F72C235; 0xEF7BDEF7BDEF7BDF; 0x14C1BACF914C1BAD; 0x8F9C18F9C18F9C19;
    0x82FA0BE82FA0BE83; 0x51B3BEA3677D46CF; 0x21CFB2B78C13521D; 0xCBEEA4E1A08AD8F3;
    0x4FBCDA3AC10C9715; 0xF0B7672A07A44C6B; 0x193D4BB7E327A977; 0x7E3F1F8FC7E3F1F9;
    0x9B8B577E613716AF; 0xA3784A062B2E43DB; 0xF47E8FD1FA3F47E9; 0xA3A0FD5C5F02A3A1;
    0x3A4C0A237C32B16D; 0xDAB7EC1DD3431B57; 0x77A04C8F8D28AC43; 0xA6C0964FDA6C0965;
    0x90FDBC090FDBC091; 0x7EFDFBF7EFDFBF7F; 0x03E88CB3C9484E2B; 0xE21A291C077975B9;
    0x3AEF6CA970586723; 0xDF5B0F768CE2CABD; 0x6FE4DFC9BF937F27; 0x5B4FE5E92C0685B5;
    0x1F693A1C451AB30B; 0x8D07AA27DB35A717; 0x882383B30D516325; 0xED6866F8D962AE7B;
    0x3454DCA410F8ED9D; 0x1D7CA632EE936F3F; 0x70BF015390948F41; 0xC96BDB9D3D137E0D;
    0x2697CC8AEF46C0F7; 0xC0E8F2A76E68575B; 0x687763DFDB43BB1F; 0x1B10EA929BA144CB;
    0x1D10C4C0478BBCED; 0x63FB9AEB1FDCD759; 0x64AFAA4F437B2E0F; 0xF010FEF010FEF011;
    0x28CBFBEB9A020A33; 0xFF00FF00FF00FF01; 0xD624FD1470E99CB7; 0x8FB3DDBD6205B5C5;
    0xD57DA36CA27ACDEF; 0xEE70C03B25E4463D; 0xC5B1A6B80749CB29; 0x47768073C9B97113;
    0x2591E94884CE32AD; 0xF02806ABC74BE1FB; 0x7EC3E8F3A7198487; 0x58550F8A39409D09;
    0xEC9E48AE6F71DE15; 0x2FF3A018BFCE8063 ].

Definition SMC_NUM_PRIME_INV64 : nat := 66.

(** Montgomery inverse via Hensel lifting (Newton-Raphson iteration) *)
Definition hensel_step (n est : Z) : Z := u64 (u64 (2 - u64 (est * n)) * est).

Definition smc_mont_inv64 (n : Z) : Z :=
  let est := Z.lxor (u64 (3 * n)) 2 in
  let est := hensel_step n est in
  let est := hensel_step n est in
  let est := hensel_step n est in
  let est := hensel_step n est in
  est.

(** Montgomery reduction *)
Definition smc_mont_reduce64 (w : wide_arith) (x_lo x_hi n n_inv : Z) : Z :=
  let m := u64 (x_lo * n_inv) in
  let t :=
    match w with
    | Int128 => u64 (Z.shiftr (u128 (m * n)) 64)
    | Emulated =>
        let a_lo := u32 m in
        let a_hi := Z.shiftr m 32 in
        let b_lo := u32 n in
        let b_hi := Z.shiftr n 32 in
        let p0 := u64 (a_lo * b_lo) in
        let p1 := u64 (a_lo * b_hi) in
        let p2 := u64 (a_hi * b_lo) in
        let p3 := u64 (a_hi * b_hi) in
        let cy := Z.shiftr (u64 (u64 (Z.shiftr p0 32 + u32 p1) + u32 p2)) 32 in
        u64 (u64 (u64 (p3 + Z.shiftr p1 32) + Z.shiftr p2 32) + cy)
    end in
  if x_hi <? t then u64 (u64 (x_hi - t) + n) else u64 (x_hi - t).

(** Montgomery multiplication *)
Definition smc_mont_mul64 (w : wide_arith) (a b n n_inv : Z) : Z :=
  match w with
  | Int128 =>
      let prod := u128 (a * b) in
      smc_mont_reduce64 w (u64 prod) (u64 (Z.shiftr prod 64)) n n_inv
  | Emulated =>
      let a_lo := u32 a in
      let a_hi := Z.shiftr a 32 in
      let b_lo := u32 b in
      let b_hi := Z.shiftr b 32 in
      let p0 := u64 (a_lo * b_lo) in
      let p1 := u64 (a_lo * b_hi) in
      let p2 := u64 (a_hi * b_lo) in
      let p3 := u64 (a_hi * b_hi) in
      let lo := u64 (u64 (p0 + u64 (Z.shiftl p1 32)) + u64 (Z.shiftl p2 32)) in
      let cy :=
        Z.b2z (lo <? p0)
        + Z.b2z (u64 (u64 (Z.shiftr p0 32 + u32 p1) + u32 p2) >=? 0x100000000) in
      let hi := u64 (u64 (u64 (p3 + Z.shiftr p1 32) + Z.shiftr p2 32) + cy) in
      smc_mont_reduce64 w lo hi n n_inv
  end.

(** Convert to Montgomery form; the callers pass [n <> 0]. *)
Definition to_mont64_step (n r : Z) : Z :=
  let r := u64 (Z.shiftl r 1) in
  if r >=? n then u64 (r - n) else r.

Definition smc_to_mont64 (w : wide_arith) (x n : Z) : Z :=
  match w with
  | Int128 => u64 (u128 (Z.shiftl x 64) mod n)
  | Emulated => Nat.iter 64 (to_mont64_step n) (x mod n)
  end.

(** One in Montgomery form; the callers pass [n <> 0]. *)
Definition smc_mont_one64 (n : Z) : Z := u64 (UINT64_MAX mod n + 1).

(** Montgomery exponentiation: [while (exp > 0) { ... exp >>= 1; }] *)
Fixpoint mont_pow64_loop (w : wide_arith) (fuel : nat)
    (result base exp n n_inv : Z) : option Z :=
  if exp >? 0 then
    match fuel with
    | O => None
    | S k =>
        let result :=
          if Z.land exp 1 =? 0 then result
          else smc_mont_mul64 w result base n n_inv in
        let base := smc_mont_mul64 w base base n n_inv in
        mont_pow64_loop w k result base (Z.shiftr exp 1) n n_inv
    end
  else Some result.

Definition smc_mont_pow64 (w : wide_arith) (base exp n n_inv one : Z) : option Z :=
  mont_pow64_loop w 64 one base exp n n_inv.

(** [neg_one = n - one; if (neg_one >= n) neg_one -= n;] *)
Definition mont_neg_one64 (n one : Z) : Z :=
  let neg_one := u64 (n - one) in
  if neg_one >=? n then u64 (neg_one - n) else neg_one.

(** [for (uint32_t r = 1; r < s; r++) { ... }] of [smc_mont_sprp64]. *)
Fixpoint mont_sprp64_loop (w : wide_arith) (fuel : nat)
    (r s x n n_inv one neg_one : Z) : option bool :=
  if r <? s then
    match fuel with
    | O => None
    | S k =>
        let x := smc_mont_mul64 w x x n n_inv in
        if x =? neg_one then Some true
        else if x =? one then Some false
        else mont_sprp64_loop w k (u32 (r + 1)) s x n n_inv one neg_one
    end
  else Some false.

(** Strong Fermat test in Montgomery form.  [a % n] with [n = 0] is
    undefined; with [n = 1] the first loop runs on [d = 0]. *)
Definition smc_mont_sprp64 (w : wide_arith) (n a n_inv one : Z) : option bool :=
  '(d, s) <- odd_part 64 (u64 (n - 1)) 0 ;;
  if n =? 0 then None
  else
    let a_mont := smc_to_mont64 w (a mod n) n in
    if a_mont =? 0 then Some true
    else
      x <- smc_mont_pow64 w a_mont d n n_inv one ;;
      let neg_one := mont_neg_one64 n one in
      if (x =? one) || (x =? neg_one) then Some true
      else mont_sprp64_loop w 64 1 s x n n_inv one neg_one.

(** Outcome of a block that may [return] from the enclosing function. *)
Inductive early : Set :=
| Returned (b : bool)
| FellThrough.

(** Fast trial division using prime inverses: the [for] loop over the table. *)
Fixpoint trial_division64 (tbl : list Z) (n : Z) : early :=
  match tbl with
  | [] => FellThrough
  | p_inv :: tbl' =>
      let prod := u64 (n * p_inv) in
      if prod =? 1 then Returned true
      else if prod <? n then Returned false
      else trial_division64 tbl' n
  end.

(** The pre-filter of [smc_is_prime64], both branches of the threshold. *)
Definition prefilter64 (n : Z) : early :=
  if n <? 55730344633563600 then
    match trial_division64 (firstn SMC_NUM_PRIME_INV64 SMC_PRIME_INV64) n with
    | Returned b => Returned b
    | FellThrough => if n <? 109561 then Returned true else FellThrough
    end
  else if n mod 3 =? 0 then Returned false
  else if n mod 5 =? 0 then Returned false
  else if n mod 7 =? 0 then Returned false
  else if n mod 11 =? 0 then Returned false
  else if n mod 13 =? 0 then Returned false
  else FellThrough.

(** Deterministic primality test for 64-bit integers *)
Definition smc_is_prime64 (w : wide_arith) (n : Z) : option bool :=
  if n <? 2 then Some false
  else if n =? 2 then Some true
  else if Z.land n 1 =? 0 then Some false
  else if n <? 9 then Some true
  else
    match prefilter64 n with
    | Returned b => Some b
    | FellThrough =>
        let n_inv := smc_mont_inv64 n in
        let one := smc_mont_one64 n in
        let sprp a := smc_mont_sprp64 w n a n_inv one in
        b <- sprp 2 ;; if negb b then Some false else
        if n <? 2047 then Some true else
        b <- sprp 3 ;; if negb b then Some false else
        if n <? 1373653 then Some true else
        b <- sprp 5 ;; if negb b then Some false else
        if n <? 25326001 then Some true else
        b <- sprp 7 ;; if negb b then Some false else
        if n <? 3215031751 then Some true else
        if n =? 3215031751 then Some false else
        b <- sprp 11 ;; if negb b then Some false else
        if n <? 2152302898747 then Some true else
        b <- sprp 13 ;; if negb b then Some false else
        if n <? 3474749660383 then Some true else
        b <- sprp 17 ;; if negb b then Some false else
        if n <? 341550071728321 then Some true else
        b <- sprp 19 ;; if negb b then Some false else
        b <- sprp 23 ;; if negb b then Some false else
        if n <? 3825123056546413051 then Some true else
        b <- sprp 29 ;; if negb b then Some false else
        b <- sprp 31 ;; if negb b then Some false else
        b <- sprp 37 ;; if negb b then Some false else
        Some true
    end.

Definition witnesses : list Z := [2; 3; 5; 7; 11; 13; 17; 19; 23; 29; 31; 37].

(** [for (int i = 0; i < 12; i++) if (!smc_mont_sprp64(...)) return false;] *)
Fixpoint witness_loop (w : wide_arith) (ws : list Z) (n n_inv one : Z) : option bool :=
  match ws with
  | [] => Some true
  | a :: ws' =>
      b <- smc_mont_sprp64 w n a n_inv one ;;
      if negb b then Some false else witness_loop w ws' n n_inv one
  end.

(** Worst-case optimized version: skips trial division. *)
Definition smc_is_prime64_wc (w : wide_arith) (n : Z) : option bool :=
  if n <? 2 then Some false
  else if n =? 2 then Some true
  else if Z.land n 1 =? 0 then Some false
  else if n <? 9 then Some true
  else if n =? 3215031751 then Some false
  else
    let n_inv := smc_mont_inv64 n in
    let one := smc_mont_one64 n in
    witness_loop w (firstn 12 witnesses) n n_inv one.

(** [while (!smc_is_prime64(n)) { n += 2; if (n < 2) return 0; }] *)
Fixpoint next_prime64_loop (w : wide_arith) (fuel : nat) (n : Z) : option Z :=
  p <- smc_is_prime64 w n ;;
  if p then Some n
  else
    match fuel with
    | O => None
    | S k =>
        let n := u64 (n + 2) in
        if n <? 2 then Some 0 else next_prime64_loop w k n
    end.

Definition smc_next_prime64 (w : wide_arith) (fuel : nat) (n : Z) : option Z :=
  if n <=? 2 then Some 2
  else if n =? 3 then Some 3
  else
    let n := if Z.land n 1 =? 0 then u64 (n + 1) else n in
    next_prime64_loop w fuel n.

(** [while (!smc_is_prime64(n)) { if (n < 3) return 2; n -= 2; }] *)
Fixpoint prev_prime64_loop (w : wide_arith) (fuel : nat) (n : Z) : option Z :=
  p <- smc_is_prime64 w n ;;
  if p then Some n
  else if n <? 3 then Some 2
  else
    match fuel with
    | O => None
    | S k => prev_prime64_loop w k (u64 (n - 2))
    end.

Definition smc_prev_prime64 (w : wide_arith) (fuel : nat) (n : Z) : option Z :=
  if n <? 2 then Some 0
  else if n =? 2 then Some 2
  else
    let n := if Z.land n 1 =? 0 then u64 (n - 1) else n in
    prev_prime64_loop w fuel n.

(** ** Specification vocabulary *)

(** Montgomery form of the residue of [x] modulo [n], radix [2^64]. *)
Definition mont_form (n x : Z) : Z := (x * 2 ^ 64) mod n.

(** [n] passes the strong Fermat test to base [a], where [n - 1 = d * 2^s]. *)
Definition strong_probable_prime (n a d s : Z) : Prop :=
  a ^ d mod n = 1 \/ exists r, 0 <= r < s /\ a ^ (d * 2 ^ r) mod n = n - 1.

(** Primality by trial division up to the square root; an executable
    reference for [Z.prime]. *)
Fixpoint has_divisor (fuel : nat) (k n : Z) : bool :=
  match fuel with
  | O => false
  | S f => (n mod k =? 0) || has_divisor f (k + 1) n
  end.

Definition is_prime_b (n : Z) : bool :=
  (1 <? n) && negb (has_divisor (Z.to_nat (Z.sqrt n - 1)) 2 n).

(** The primes from 3 to 331, in increasing order. *)
Definition table_primes : list Z :=
  filter is_prime_b (map Z.of_nat (seq 3 329)).

(** [p_inv] is the inverse of [p] modulo 2^64, as a 64-bit word. *)
Definition is_inverse64 (p p_inv : Z) : Prop :=
  0 <= p_inv < 2 ^ 64 /\ (p * p_inv) mod 2 ^ 64 = 1.

(** What the squaring loop of a strong Fermat round decides, for the residue
    [y] the loop starts from at counter [r]. *)
Definition later_minus_one (n r s y : Z) : Prop :=
  exists j, r <= j < s /\ y ^ 2 ^ (j - r + 1) mod n = n - 1.


(** The middle column of the emulated 64x64 product: the high half of
    [a_lo*b_lo] and the low halves of the two cross products. *)
Definition mid_column (a b : Z) : Z * Z * Z :=
  (Z.shiftr (u32 a * u32 b) 32,
   u32 (u32 a * Z.shiftr b 32),
   u32 (Z.shiftr a 32 * u32 b)).

(** The overflow that the emulated [smc_mont_mul64] counts twice: the
    column overflows once, and not through the two cross products alone. *)
Definition double_counted_carry (a b : Z) : bool :=
  let '(A, B, C) := mid_column a b in
  (2 ^ 32 <=? A + B + C) && (B + C <? 2 ^ 32).

(** The moduli on which a build of the Montgomery engine is exact: all of
    them with [__int128]; those up to 2^32 on the emulated build, whose
    operands then have no high half. *)
Definition exact_build (w : wide_arith) (n : Z) : Prop :=
  w = Emulated -> n <= 2 ^ 32.

(** ** Word arithmetic *)

Lemma two64_eq : 2 ^ 64 = 18446744073709551616.
Proof. reflexivity. Qed.

Lemma two32_eq : 2 ^ 32 = 4294967296.
Proof. reflexivity. Qed.

Lemma u64_range x : 0 <= u64 x < 2 ^ 64.
Proof. unfold u64. apply Z.mod_pos_bound. reflexivity. Qed.

Lemma u32_range x : 0 <= u32 x < 2 ^ 32.
Proof. unfold u32. apply Z.mod_pos_bound. reflexivity. Qed.

Lemma u64_small x : 0 <= x < 2 ^ 64 -> u64 x = x.
Proof. intros H. unfold u64. now apply Z.mod_small. Qed.

Lemma u32_small x : 0 <= x < 2 ^ 32 -> u32 x = x.
Proof. intros H. unfold u32. now apply Z.mod_small. Qed.

Lemma u128_small x : 0 <= x < 2 ^ 128 -> u128 x = x.
Proof. intros H. unfold u128. now apply Z.mod_small. Qed.

(** Reducing a word modulo a divisor of the word size forgets the wrap. *)
Lemma u64_mod_divisor x M : (M | 2 ^ 64) -> u64 x mod M = x mod M.
Proof. intros HD. unfold u64. now apply Z.mod_mod_divide. Qed.

Lemma land_1_even x : (Z.land x 1 =? 0) = Z.even x.
Proof.
  change 1 with (Z.ones 1). rewrite Z.land_ones by lia.
  change (2 ^ 1) with 2. rewrite Zeven_mod. reflexivity.
Qed.

Lemma odd_mod2 x : Z.odd x = true -> x mod 2 = 1.
Proof. intros H. rewrite Zodd_mod in H. apply Z.eqb_eq in H. exact H. Qed.

Lemma lxor_mod_pow2 a b k :
  0 <= k -> Z.lxor a b mod 2 ^ k = Z.lxor (a mod 2 ^ k) (b mod 2 ^ k).
Proof.
  intros Hk. rewrite <- !Z.land_ones by assumption.
  apply Z.bits_inj'. intros i Hi.
  rewrite Z.lxor_spec, !Z.land_spec, Z.lxor_spec.
  destruct (Z.testbit a i), (Z.testbit b i), (Z.testbit (Z.ones k) i); reflexivity.
Qed.

(** ** The inverse modulo 2^64 *)

(** The starting estimate is correct to five bits. *)
Lemma seed_five_bits n :
  Z.odd n = true -> (n * Z.lxor (u64 (3 * n)) 2) mod 32 = 1.
Proof.
  intros Hodd.
  rewrite Z.mul_mod by lia.
  assert (E : Z.lxor (u64 (3 * n)) 2 mod 32 = Z.lxor ((3 * (n mod 32)) mod 32) 2).
  { change 32 with (2 ^ 5) at 1. rewrite lxor_mod_pow2 by lia.
    change (2 ^ 5) with 32. change (2 mod 32) with 2.
    rewrite u64_mod_divisor by (exists (2 ^ 59); reflexivity).
    rewrite (Z.mul_mod 3 n) by lia. reflexivity. }
  rewrite E.
  assert (Hr : 0 <= n mod 32 < 32) by (apply Z.mod_pos_bound; lia).
  assert (Ho : (n mod 32) mod 2 = 1).
  { rewrite Z.mod_mod_divide by (exists 16; reflexivity). now apply odd_mod2. }
  set (k := n mod 32) in *. clearbody k.
  assert (Hk : k = 1 \/ k = 3 \/ k = 5 \/ k = 7 \/ k = 9 \/ k = 11 \/ k = 13 \/ k = 15
            \/ k = 17 \/ k = 19 \/ k = 21 \/ k = 23 \/ k = 25 \/ k = 27 \/ k = 29 \/ k = 31).
  { assert (Hq := Z.div_mod k 2 ltac:(lia)). lia. }
  repeat (destruct Hk as [-> | Hk]; [ reflexivity | ]). subst k. reflexivity.
Qed.

(** One Newton step squares the modulus to which the estimate is correct. *)
Lemma hensel_step_lifts n est M M2 :
  0 < M -> 1 < M2 -> (M2 | M * M) -> (M2 | 2 ^ 64) ->
  (n * est) mod M = 1 -> (n * hensel_step n est) mod M2 = 1.
Proof.
  intros HM HM2 Hsq Hw H.
  unfold hensel_step.
  rewrite Z.mul_mod by lia.
  rewrite u64_mod_divisor by assumption.
  rewrite (Z.mul_mod (u64 _) est) by lia.
  rewrite u64_mod_divisor by assumption.
  rewrite Zminus_mod. rewrite u64_mod_divisor by assumption.
  rewrite <- Zminus_mod. rewrite <- (Z.mul_mod (2 - est * n) est) by lia.
  rewrite <- Z.mul_mod by lia.
  assert (Hc := Z.div_mod (n * est) M ltac:(lia)). rewrite H in Hc.
  set (c := (n * est) / M) in *. clearbody c.
  replace (n * ((2 - est * n) * est)) with ((n * est) * (2 - n * est)) by ring.
  rewrite Hc.
  replace ((M * c + 1) * (2 - (M * c + 1))) with (1 + (M * M) * (- c * c)) by ring.
  destruct Hsq as [q Hq]. rewrite Hq.
  replace (1 + q * M2 * (- c * c)) with (1 + (q * (- c * c)) * M2) by ring.
  rewrite Z_mod_plus_full. apply Z.mod_small. lia.
Qed.

Lemma smc_mont_inv64_range n : 0 <= smc_mont_inv64 n < 2 ^ 64.
Proof. unfold smc_mont_inv64, hensel_step. apply u64_range. Qed.

Lemma mont_inv64_inverse n :
  Z.odd n = true -> (n * smc_mont_inv64 n) mod 2 ^ 64 = 1.
Proof.
  intros Hodd. unfold smc_mont_inv64.
  apply (hensel_step_lifts n _ (2 ^ 40) (2 ^ 64)); try lia;
    [ exists (2 ^ 16); reflexivity | exists 1; reflexivity | ].
  apply (hensel_step_lifts n _ (2 ^ 20) (2 ^ 40)); try lia;
    [ exists 1; reflexivity | exists (2 ^ 24); reflexivity | ].
  apply (hensel_step_lifts n _ (2 ^ 10) (2 ^ 20)); try lia;
    [ exists 1; reflexivity | exists (2 ^ 44); reflexivity | ].
  apply (hensel_step_lifts n _ 32 (2 ^ 10)); try lia;
    [ exists 1; reflexivity | exists (2 ^ 54); reflexivity | ].
  now apply seed_five_bits.
Qed.

(** C2: for every odd 64-bit [n], the value of [smc_mont_inv64 n] (seed
    [(3*n) xor 2], then four steps [est = (2 - est*n) * est], all wrapping
    modulo 2^64) satisfies [n * smc_mont_inv64 n = 1] modulo 2^64. *)
Theorem smc_mont_inv64_correct n :
  0 <= n < 2 ^ 64 -> Z.odd n = true ->
  (n * smc_mont_inv64 n) mod 2 ^ 64 = 1.
Proof. intros _ Hodd. now apply mont_inv64_inverse. Qed.

Lemma smc_mont_inv64_correct_witness :
  (0 <= 1000000007 < 2 ^ 64) /\ Z.odd 1000000007 = true /\
  (1000000007 * smc_mont_inv64 1000000007) mod 2 ^ 64 = 1.
Proof.
  split; [ lia | split; [ reflexivity | ] ].
  apply smc_mont_inv64_correct; [ lia | reflexivity ].
Defined.

(** ** One in Montgomery form *)

Lemma odd_coprime_two64 n : Z.odd n = true -> Z.coprime (2 ^ 64) n.
Proof.
  intros Hodd. apply Z.coprime_pow_l; [ lia | ].
  unfold Z.coprime.
  assert (Hd : (Z.gcd 2 n | 2)) by apply Z.gcd_divide_l.
  assert (Hn : (Z.gcd 2 n | n)) by apply Z.gcd_divide_r.
  assert (Hg : 0 <= Z.gcd 2 n) by apply Z.gcd_nonneg.
  assert (Hle : Z.gcd 2 n <= 2) by (apply Z.divide_pos_le; [ lia | exact Hd ]).
  assert (Hc : Z.gcd 2 n = 0 \/ Z.gcd 2 n = 1 \/ Z.gcd 2 n = 2) by lia.
  destruct Hc as [Hc | [Hc | Hc]]; [ | exact Hc | ].
  - rewrite Hc in Hd. destruct Hd as [q Hq]. lia.
  - rewrite Hc in Hn. destruct Hn as [q Hq].
    apply odd_mod2 in Hodd. rewrite Hq, Z.mod_mul in Hodd by lia. discriminate.
Qed.

Lemma two64_mod_odd_nonzero n :
  1 < n -> Z.odd n = true -> 2 ^ 64 mod n <> 0.
Proof.
  intros Hn Hodd H0.
  assert (H1 : 1 mod n = 0).
  { apply (Z.cong_mul_cancel_r_coprime 1 (2 ^ 64) n); [ lia | | ].
    - now apply odd_coprime_two64.
    - rewrite Z.mul_1_l. exact H0. }
  rewrite Z.mod_small in H1 by lia. discriminate.
Qed.

Lemma smc_mont_one64_eq n :
  3 <= n < 2 ^ 64 -> Z.odd n = true -> smc_mont_one64 n = 2 ^ 64 mod n.
Proof.
  intros Hn Hodd. unfold smc_mont_one64, UINT64_MAX.
  assert (Hnz := two64_mod_odd_nonzero n ltac:(lia) Hodd).
  assert (Hr : 0 <= 2 ^ 64 mod n < n) by (apply Z.mod_pos_bound; lia).
  assert (Hd := Z.div_mod (2 ^ 64) n ltac:(lia)).
  assert (E : (2 ^ 64 - 1) mod n = 2 ^ 64 mod n - 1).
  { symmetry. apply (Z.mod_unique_pos _ _ (2 ^ 64 / n)); lia. }
  rewrite E. rewrite u64_small; lia.
Qed.

Lemma mont_one64_facts n :
  3 <= n < 2 ^ 64 -> Z.odd n = true ->
  1 <= smc_mont_one64 n <= n - 1 /\
  smc_mont_one64 n = 2 ^ 64 mod n /\
  (u64 (n - smc_mont_one64 n) >=? n) = false /\
  mont_neg_one64 n (smc_mont_one64 n) = n - smc_mont_one64 n.
Proof.
  intros Hn Hodd.
  assert (E := smc_mont_one64_eq n Hn Hodd).
  assert (Hnz := two64_mod_odd_nonzero n ltac:(lia) Hodd).
  assert (Hr : 0 <= 2 ^ 64 mod n < n) by (apply Z.mod_pos_bound; lia).
  assert (R : 1 <= smc_mont_one64 n <= n - 1) by (rewrite E; lia).
  assert (U : u64 (n - smc_mont_one64 n) = n - smc_mont_one64 n)
    by (apply u64_small; lia).
  assert (B : (u64 (n - smc_mont_one64 n) >=? n) = false)
    by (rewrite U, Z.geb_leb; apply Z.leb_gt; lia).
  repeat split; try lia; try assumption.
  unfold mont_neg_one64. rewrite B. exact U.
Qed.

(** C10: for every odd 64-bit [n >= 3], [smc_mont_one64 n] lies in
    [1, n-1] and equals [2^64 mod n]; hence [n - one] is already below [n]
    and the correction branch [if (neg_one >= n) neg_one -= n] of
    [smc_mont_sprp64] is not taken. *)
Theorem smc_mont_one64_range n :
  3 <= n < 2 ^ 64 -> Z.odd n = true ->
  1 <= smc_mont_one64 n <= n - 1 /\
  smc_mont_one64 n = 2 ^ 64 mod n /\
  u64 (n - smc_mont_one64 n) < n /\
  (u64 (n - smc_mont_one64 n) >=? n) = false /\
  mont_neg_one64 n (smc_mont_one64 n) = u64 (n - smc_mont_one64 n).
Proof.
  intros Hn Hodd.
  destruct (mont_one64_facts n Hn Hodd) as (R & E & B & N).
  assert (U : u64 (n - smc_mont_one64 n) = n - smc_mont_one64 n)
    by (apply u64_small; lia).
  rewrite U. repeat split; try lia; try assumption.
Qed.

Lemma smc_mont_one64_range_witness :
  (3 <= 1000000007 < 2 ^ 64) /\ Z.odd 1000000007 = true /\
  1 <= smc_mont_one64 1000000007 <= 1000000007 - 1 /\
  (u64 (1000000007 - smc_mont_one64 1000000007) >=? 1000000007) = false.
Proof.
  split; [ lia | split; [ reflexivity | ] ].
  destruct (smc_mont_one64_range 1000000007 ltac:(lia) eq_refl) as (R & _ & _ & B & _).
  split; [ exact R | exact B ].
Defined.

(** ** High word of a 64x64 product *)

Lemma shiftr32 x : Z.shiftr x 32 = x / 2 ^ 32.
Proof. apply Z.shiftr_div_pow2. lia. Qed.

Lemma shiftr64 x : Z.shiftr x 64 = x / 2 ^ 64.
Proof. apply Z.shiftr_div_pow2. lia. Qed.

Lemma shiftr1 x : Z.shiftr x 1 = x / 2.
Proof. rewrite Z.shiftr_div_pow2 by lia. reflexivity. Qed.

(** The four partial products of two words, as the emulation forms them. *)
Lemma partial_products a b :
  0 <= a < 2 ^ 64 -> 0 <= b < 2 ^ 64 ->
  let a_lo := u32 a in let a_hi := Z.shiftr a 32 in
  let b_lo := u32 b in let b_hi := Z.shiftr b 32 in
  (0 <= a_lo * b_lo <= 2 ^ 64 - 2 ^ 33 + 1) /\
  (0 <= a_lo * b_hi <= 2 ^ 64 - 2 ^ 33 + 1) /\
  (0 <= a_hi * b_lo <= 2 ^ 64 - 2 ^ 33 + 1) /\
  (0 <= a_hi * b_hi <= 2 ^ 64 - 2 ^ 33 + 1) /\
  a * b = a_hi * b_hi * 2 ^ 64 + (a_lo * b_hi + a_hi * b_lo) * 2 ^ 32 + a_lo * b_lo.
Proof.
  intros Ha Hb a_lo a_hi b_lo b_hi.
  assert (Hal : 0 <= a_lo <= 2 ^ 32 - 1) by (pose proof (u32_range a); subst a_lo; lia).
  assert (Hbl : 0 <= b_lo <= 2 ^ 32 - 1) by (pose proof (u32_range b); subst b_lo; lia).
  assert (Ea : a = 2 ^ 32 * a_hi + a_lo).
  { subst a_hi a_lo. rewrite shiftr32. unfold u32. apply Z.div_mod. lia. }
  assert (Eb : b = 2 ^ 32 * b_hi + b_lo).
  { subst b_hi b_lo. rewrite shiftr32. unfold u32. apply Z.div_mod. lia. }
  assert (Hah : 0 <= a_hi <= 2 ^ 32 - 1).
  { subst a_hi. rewrite shiftr32. split; [ apply Z.div_pos; lia | ].
    assert (a / 2 ^ 32 < 2 ^ 32) by (apply Z.div_lt_upper_bound; lia). lia. }
  assert (Hbh : 0 <= b_hi <= 2 ^ 32 - 1).
  { subst b_hi. rewrite shiftr32. split; [ apply Z.div_pos; lia | ].
    assert (b / 2 ^ 32 < 2 ^ 32) by (apply Z.div_lt_upper_bound; lia). lia. }
  clearbody a_lo a_hi b_lo b_hi.
  change (2 ^ 64 - 2 ^ 33 + 1) with ((2 ^ 32 - 1) * (2 ^ 32 - 1)).
  repeat split; try (apply Z.mul_nonneg_nonneg; lia);
    try (apply Z.mul_le_mono_nonneg; lia).
  rewrite Ea, Eb at 1. change (2 ^ 64) with (2 ^ 32 * 2 ^ 32). ring.
Qed.

(** The carry-propagating sum of [smc_mont_reduce64] is the high word. *)
Lemma mulhi_emulated a b :
  0 <= a < 2 ^ 64 -> 0 <= b < 2 ^ 64 ->
  let a_lo := u32 a in let a_hi := Z.shiftr a 32 in
  let b_lo := u32 b in let b_hi := Z.shiftr b 32 in
  let p0 := u64 (a_lo * b_lo) in
  let p1 := u64 (a_lo * b_hi) in
  let p2 := u64 (a_hi * b_lo) in
  let p3 := u64 (a_hi * b_hi) in
  let cy := Z.shiftr (u64 (u64 (Z.shiftr p0 32 + u32 p1) + u32 p2)) 32 in
  u64 (u64 (u64 (p3 + Z.shiftr p1 32) + Z.shiftr p2 32) + cy) = (a * b) / 2 ^ 64.
Proof.
  intros Ha Hb a_lo a_hi b_lo b_hi.
  destruct (partial_products a b Ha Hb) as (H0 & H1 & H2 & H3 & E).
  fold a_lo a_hi b_lo b_hi in H0, H1, H2, H3, E.
  intros p0 p1 p2 p3 cy.
  assert (E0 : p0 = a_lo * b_lo) by (apply u64_small; lia).
  assert (E1 : p1 = a_lo * b_hi) by (apply u64_small; lia).
  assert (E2 : p2 = a_hi * b_lo) by (apply u64_small; lia).
  assert (E3 : p3 = a_hi * b_hi) by (apply u64_small; lia).
  rewrite <- E0, <- E1, <- E2, <- E3 in *.
  clearbody p0 p1 p2 p3. clear E0 E1 E2 E3.
  unfold cy. clear cy. rewrite !shiftr32. unfold u32.
  assert (D0 := Z.div_mod p0 (2 ^ 32) ltac:(lia)).
  assert (D1 := Z.div_mod p1 (2 ^ 32) ltac:(lia)).
  assert (D2 := Z.div_mod p2 (2 ^ 32) ltac:(lia)).
  assert (M0 := Z.mod_pos_bound p0 (2 ^ 32) ltac:(lia)).
  assert (M1 := Z.mod_pos_bound p1 (2 ^ 32) ltac:(lia)).
  assert (M2 := Z.mod_pos_bound p2 (2 ^ 32) ltac:(lia)).
  set (A := p0 / 2 ^ 32) in *. set (L := p0 mod 2 ^ 32) in *.
  set (B := p1 mod 2 ^ 32) in *. set (C := p2 mod 2 ^ 32) in *.
  set (h1 := p1 / 2 ^ 32) in *. set (h2 := p2 / 2 ^ 32) in *.
  clearbody A L B C h1 h2.
  rewrite (u64_small (A + B)) by lia.
  rewrite (u64_small (A + B + C)) by lia.
  set (cy := (A + B + C) / 2 ^ 32).
  assert (Ecy : cy = (A + B + C) / 2 ^ 32) by reflexivity.
  assert (Dc := Z.div_mod (A + B + C) (2 ^ 32) ltac:(lia)).
  assert (Mc := Z.mod_pos_bound (A + B + C) (2 ^ 32) ltac:(lia)).
  rewrite <- Ecy in Dc. clearbody cy.
  set (rem := (A + B + C) mod 2 ^ 32) in *. clearbody rem.
  assert (T : a * b = (p3 + h1 + h2 + cy) * 2 ^ 64 + (rem * 2 ^ 32 + L)) by lia.
  assert (Hq : (a * b) / 2 ^ 64 = p3 + h1 + h2 + cy).
  { symmetry. apply (Z.div_unique_pos _ _ _ (rem * 2 ^ 32 + L)); lia. }
  assert (Hub : a * b < 2 ^ 64 * 2 ^ 64) by nia.
  assert (Hlt : p3 + h1 + h2 + cy < 2 ^ 64).
  { rewrite <- Hq. apply Z.div_lt_upper_bound; lia. }
  rewrite Hq.
  rewrite (u64_small (p3 + h1)) by lia.
  rewrite (u64_small (p3 + h1 + h2)) by lia.
  apply u64_small. lia.
Qed.

Lemma mulhi_int128 a b :
  0 <= a < 2 ^ 64 -> 0 <= b < 2 ^ 64 ->
  u64 (Z.shiftr (u128 (a * b)) 64) = (a * b) / 2 ^ 64.
Proof.
  intros Ha Hb.
  assert (Hub : 0 <= a * b < 2 ^ 64 * 2 ^ 64) by nia.
  rewrite u128_small by (change (2 ^ 128) with (2 ^ 64 * 2 ^ 64); lia).
  rewrite shiftr64. apply u64_small.
  split; [ apply Z.div_pos; lia | apply Z.div_lt_upper_bound; lia ].
Qed.

(** ** Montgomery reduction *)

(** Both builds of [smc_mont_reduce64] compute the same function. *)
Lemma smc_mont_reduce64_unfold w x_lo x_hi n n_inv :
  0 <= n < 2 ^ 64 ->
  smc_mont_reduce64 w x_lo x_hi n n_inv =
  let t := (u64 (x_lo * n_inv) * n) / 2 ^ 64 in
  if x_hi <? t then u64 (u64 (x_hi - t) + n) else u64 (x_hi - t).
Proof.
  intros Hn. unfold smc_mont_reduce64.
  pose proof (u64_range (x_lo * n_inv)) as Hm.
  destruct w.
  - rewrite mulhi_int128 by assumption. reflexivity.
  - rewrite (mulhi_emulated (u64 (x_lo * n_inv)) n Hm Hn). reflexivity.
Qed.

Section Reduce.
Variables n n_inv : Z.
Hypothesis n_range : 1 < n < 2 ^ 64.
Hypothesis n_inv_ok : (n * n_inv) mod 2 ^ 64 = 1.

Lemma mont_m_cancels x_lo :
  0 <= x_lo < 2 ^ 64 -> (u64 (x_lo * n_inv) * n) mod 2 ^ 64 = x_lo.
Proof.
  intros Hx. unfold u64.
  rewrite Z.mul_mod_idemp_l by lia.
  replace (x_lo * n_inv * n) with (x_lo * (n * n_inv)) by ring.
  rewrite <- Z.mul_mod_idemp_r by lia.
  rewrite n_inv_ok, Z.mul_1_r. apply Z.mod_small. exact Hx.
Qed.

(** The reduced value, exactly: [r * 2^64 = x - m*n] or [x - m*n + n*2^64]. *)
Lemma mont_reduce_exact w x_lo x_hi :
  0 <= x_lo < 2 ^ 64 -> 0 <= x_hi < n ->
  let r := smc_mont_reduce64 w x_lo x_hi n n_inv in
  0 <= r < n /\
  exists k, r * 2 ^ 64 = x_hi * 2 ^ 64 + x_lo + k * n.
Proof.
  intros Hlo Hhi.
  rewrite smc_mont_reduce64_unfold by lia. cbv zeta.
  pose proof (u64_range (x_lo * n_inv)) as Hm.
  pose proof (mont_m_cancels x_lo Hlo) as Hc.
  set (m := u64 (x_lo * n_inv)) in *. clearbody m.
  assert (D := Z.div_mod (m * n) (2 ^ 64) ltac:(lia)). rewrite Hc in D.
  assert (Ht : 0 <= m * n / 2 ^ 64 < n).
  { split; [ apply Z.div_pos; nia | apply Z.div_lt_upper_bound; nia ]. }
  set (t := m * n / 2 ^ 64) in *. clearbody t.
  destruct (x_hi <? t) eqn:Hcmp.
  - apply Z.ltb_lt in Hcmp.
    assert (E1 : u64 (x_hi - t) = x_hi - t + 2 ^ 64).
    { unfold u64. symmetry. apply (Z.mod_unique_pos _ _ (-1)); lia. }
    assert (E2 : u64 (u64 (x_hi - t) + n) = x_hi - t + n).
    { rewrite E1. unfold u64. symmetry. apply (Z.mod_unique_pos _ _ 1); lia. }
    rewrite E2. split; [ lia | ].
    exists (2 ^ 64 - m). nia.
  - apply Z.ltb_ge in Hcmp.
    rewrite u64_small by lia. split; [ lia | ].
    exists (- m). nia.
Qed.

Lemma mont_reduce_congr w x_lo x_hi :
  0 <= x_lo < 2 ^ 64 -> 0 <= x_hi < n ->
  (smc_mont_reduce64 w x_lo x_hi n n_inv * 2 ^ 64) mod n
  = (x_hi * 2 ^ 64 + x_lo) mod n.
Proof.
  intros Hlo Hhi.
  destruct (mont_reduce_exact w x_lo x_hi Hlo Hhi) as [_ [k Hk]].
  rewrite Hk. apply Z_mod_plus_full.
Qed.
End Reduce.

(** Cancelling the Montgomery radix modulo an odd modulus. *)
Lemma radix_cancel n u v :
  1 < n -> Z.odd n = true ->
  (u * 2 ^ 64) mod n = (v * 2 ^ 64) mod n -> u mod n = v mod n.
Proof.
  intros Hn Hodd H.
  assert (H0 : ((u - v) * 2 ^ 64) mod n = 0).
  { rewrite Z.mul_sub_distr_r, Zminus_mod, H, Z.sub_diag. apply Z.mod_0_l. lia. }
  apply Z.cong_mul_cancel_r_coprime in H0; [ | lia | now apply odd_coprime_two64 ].
  replace u with (v + (u - v)) by ring.
  rewrite Z.add_mod, H0, Z.add_0_r, Z.mod_mod by lia. reflexivity.
Qed.

(** C3: Montgomery reduction of [x = x_hi*2^64 + x_lo < n*2^64] for an odd
    modulus [n >= 3] with [n_inv = smc_mont_inv64 n] returns [r] with
    [r = x * 2^(-64)] modulo [n] and [r < 2n]; on the product of two operands
    below [n], as [smc_mont_mul64] forms it, the result is below [n]. *)
Theorem smc_mont_reduce64_correct w n :
  3 <= n < 2 ^ 64 -> Z.odd n = true ->
  let n_inv := smc_mont_inv64 n in
  (forall x_lo x_hi,
      0 <= x_lo < 2 ^ 64 -> 0 <= x_hi < 2 ^ 64 ->
      x_hi * 2 ^ 64 + x_lo < n * 2 ^ 64 ->
      let r := smc_mont_reduce64 w x_lo x_hi n n_inv in
      (r * 2 ^ 64) mod n = (x_hi * 2 ^ 64 + x_lo) mod n /\
      r mod n = ((x_hi * 2 ^ 64 + x_lo) * Z.invmod (2 ^ 64) n) mod n /\
      0 <= r < 2 * n) /\
  (forall a b,
      0 <= a < n -> 0 <= b < n ->
      smc_mont_mul64 Int128 a b n n_inv
      = smc_mont_reduce64 Int128 (u64 (a * b)) (a * b / 2 ^ 64) n n_inv /\
      0 <= smc_mont_reduce64 w (u64 (a * b)) (a * b / 2 ^ 64) n n_inv < n).
Proof.
  intros Hn Hodd n_inv.
  assert (Hinv : (n * n_inv) mod 2 ^ 64 = 1)
    by (now apply mont_inv64_inverse).
  split.
  - intros x_lo x_hi Hlo Hhi Hx r.
    assert (Hhi' : 0 <= x_hi < n) by lia.
    destruct (mont_reduce_exact n n_inv ltac:(lia) Hinv w x_lo x_hi Hlo Hhi')
      as [Hr _].
    assert (C := mont_reduce_congr n n_inv ltac:(lia) Hinv w x_lo x_hi Hlo Hhi').
    fold r in Hr, C.
    split; [ exact C | split; [ | lia ] ].
    apply (radix_cancel n); [ lia | exact Hodd | ].
    rewrite C.
    rewrite <- Z.mul_assoc, <- Z.mul_mod_idemp_r by lia.
    rewrite Z.invmod_coprime by (try lia; now apply odd_coprime_two64).
    rewrite Z.mul_1_r. reflexivity.
  - intros a b Ha Hb.
    assert (Hab : 0 <= a * b < n * n) by nia.
    assert (Hq : 0 <= a * b / 2 ^ 64 < n).
    { split; [ apply Z.div_pos; lia | apply Z.div_lt_upper_bound; nia ]. }
    split.
    + unfold smc_mont_mul64.
      rewrite u128_small by (change (2 ^ 128) with (2 ^ 64 * 2 ^ 64); nia).
      rewrite shiftr64. rewrite (u64_small (a * b / 2 ^ 64)) by lia. reflexivity.
    + apply (mont_reduce_exact n n_inv ltac:(lia) Hinv w); [ apply u64_range | exact Hq ].
Qed.

Lemma smc_mont_reduce64_correct_witness :
  (3 <= 1000000007 < 2 ^ 64) /\ Z.odd 1000000007 = true /\
  (smc_mont_reduce64 Emulated 5 7 1000000007 (smc_mont_inv64 1000000007) * 2 ^ 64)
    mod 1000000007 = (7 * 2 ^ 64 + 5) mod 1000000007.
Proof.
  split; [ lia | split; [ reflexivity | ] ].
  destruct (smc_mont_reduce64_correct Emulated 1000000007 ltac:(lia) eq_refl) as [H _].
  destruct (H 5 7 ltac:(lia) ltac:(lia) ltac:(lia)) as [C _]. exact C.
Defined.

(** ** Splitting off the even part *)

Lemma odd_part_spec fuel : forall d s s0,
  0 < d -> Z.odd d = true -> 0 <= s0 -> (Z.to_nat s <= fuel)%nat ->
  0 <= s -> s0 + s < 2 ^ 32 ->
  odd_part fuel (d * 2 ^ s) s0 = Some (d, s0 + s).
Proof.
  induction fuel as [ | k IH ]; intros d s s0 Hd Hodd Hs0 Hfuel Hs Hlt.
  - assert (s = 0) by lia. subst s.
    cbn [odd_part]. rewrite Z.pow_0_r, Z.mul_1_r, land_1_even.
    rewrite <- Z.negb_odd, Hodd, Z.add_0_r. reflexivity.
  - cbn [odd_part]. rewrite land_1_even.
    destruct (Z.eq_dec s 0) as [-> | Hnz].
    + rewrite Z.pow_0_r, Z.mul_1_r, <- Z.negb_odd, Hodd, Z.add_0_r. reflexivity.
    + assert (E : d * 2 ^ s = 2 * (d * 2 ^ (s - 1))).
      { replace s with (1 + (s - 1)) at 1 by ring.
        rewrite Z.pow_add_r by lia. change (2 ^ 1) with 2. ring. }
      rewrite E, Z.even_mul. cbn [Z.even orb].
      rewrite shiftr1. rewrite (Z.mul_comm 2), Z.div_mul by lia.
      rewrite u32_small by lia.
      rewrite (IH d (s - 1) (s0 + 1)) by (try assumption; lia).
      f_equal. f_equal. ring.
Qed.

(** ** Montgomery multiplication and exponentiation on an [__int128] build *)

Section Montgomery.
Variables n n_inv : Z.
Hypothesis n_range : 1 < n < 2 ^ 64.
Hypothesis n_odd : Z.odd n = true.
Hypothesis n_inv_ok : (n * n_inv) mod 2 ^ 64 = 1.

Lemma mont_form_range x : 0 <= mont_form n x < n.
Proof. unfold mont_form. apply Z.mod_pos_bound. lia. Qed.

Lemma mont_form_mod x : mont_form n (x mod n) = mont_form n x.
Proof. unfold mont_form. apply Z.mul_mod_idemp_l. lia. Qed.

Lemma mont_form_inj x y : mont_form n x = mont_form n y <-> x mod n = y mod n.
Proof.
  unfold mont_form. split; intros H.
  - apply radix_cancel; [ lia | exact n_odd | exact H ].
  - rewrite <- (Z.mul_mod_idemp_l x), H, Z.mul_mod_idemp_l by lia. reflexivity.
Qed.

Lemma mont_form_zero x : mont_form n x = 0 <-> x mod n = 0.
Proof.
  replace 0 with (mont_form n 0) at 1
    by (unfold mont_form; rewrite Z.mul_0_l; apply Z.mod_0_l; lia).
  rewrite mont_form_inj. rewrite (Z.mod_0_l n) by lia. reflexivity.
Qed.

Lemma smc_mont_mul64_int128 u v :
  smc_mont_mul64 Int128 (mont_form n u) (mont_form n v) n n_inv
  = mont_form n (u * v).
Proof.
  pose proof (mont_form_range u) as Hu. pose proof (mont_form_range v) as Hv.
  set (a := mont_form n u) in *. set (b := mont_form n v) in *.
  assert (Hab : 0 <= a * b < n * n) by nia.
  assert (Hq : 0 <= a * b / 2 ^ 64 < n).
  { split; [ apply Z.div_pos; lia | apply Z.div_lt_upper_bound; nia ]. }
  unfold smc_mont_mul64.
  rewrite u128_small by (change (2 ^ 128) with (2 ^ 64 * 2 ^ 64); nia).
  rewrite shiftr64, (u64_small (a * b / 2 ^ 64)) by lia.
  destruct (mont_reduce_exact n n_inv n_range n_inv_ok Int128
              (u64 (a * b)) (a * b / 2 ^ 64) (u64_range _) Hq) as [Hr _].
  assert (C := mont_reduce_congr n n_inv n_range n_inv_ok Int128
              (u64 (a * b)) (a * b / 2 ^ 64) (u64_range _) Hq).
  set (r := smc_mont_reduce64 Int128 (u64 (a * b)) (a * b / 2 ^ 64) n n_inv) in *.
  clearbody r.
  assert (Ex : a * b / 2 ^ 64 * 2 ^ 64 + u64 (a * b) = a * b).
  { unfold u64. pose proof (Z.div_mod (a * b) (2 ^ 64) ltac:(lia)). lia. }
  rewrite Ex in C.
  rewrite <- (Z.mod_small r n) by exact Hr.
  rewrite <- (Z.mod_small (mont_form n (u * v)) n) by apply mont_form_range.
  apply radix_cancel; [ lia | exact n_odd | ].
  rewrite C. subst a b. unfold mont_form.
  rewrite <- Z.mul_mod by lia.
  rewrite Z.mul_mod_idemp_l by lia.
  f_equal. ring.
Qed.

Lemma smc_to_mont64_int128 x :
  0 <= x < 2 ^ 64 -> smc_to_mont64 Int128 x n = mont_form n x.
Proof.
  intros Hx. unfold smc_to_mont64, mont_form.
  rewrite Z.shiftl_mul_pow2 by lia.
  rewrite u128_small by (change (2 ^ 128) with (2 ^ 64 * 2 ^ 64); nia).
  apply u64_small.
  pose proof (Z.mod_pos_bound (x * 2 ^ 64) n ltac:(lia)). lia.
Qed.

End Montgomery.

(** ** Repeated squaring *)

Lemma pow_two_succ y k : 0 <= k -> y ^ 2 ^ (k + 1) = (y * y) ^ 2 ^ k.
Proof.
  intros Hk. rewrite Z.pow_add_r, Z.pow_1_r, Z.mul_comm by lia.
  rewrite Z.pow_mul_r by lia. rewrite Z.pow_2_r. reflexivity.
Qed.

Lemma square_one_stays n y k :
  1 < n -> 0 <= k -> (y * y) mod n = 1 -> (y * y) ^ 2 ^ k mod n = 1.
Proof.
  intros Hn Hk H.
  rewrite <- Z.mod_pow_l, H, Z.pow_1_l by lia. apply Z.mod_small. lia.
Qed.

Lemma later_minus_one_none n r s y : s <= r -> ~ later_minus_one n r s y.
Proof. intros Hs [j [Hj _]]. lia. Qed.

Lemma later_minus_one_now n r s y :
  r < s -> (y * y) mod n = n - 1 -> later_minus_one n r s y.
Proof.
  intros Hr H. exists r. split; [ lia | ].
  replace (r - r + 1) with 1 by ring. change (2 ^ 1) with 2.
  rewrite Z.pow_2_r. exact H.
Qed.

Lemma later_minus_one_stuck n r s y :
  2 < n -> (y * y) mod n = 1 -> ~ later_minus_one n r s y.
Proof.
  intros Hn H [j [Hj E]].
  replace (j - r + 1) with ((j - r) + 1) in E by ring.
  rewrite pow_two_succ, square_one_stays in E by lia. lia.
Qed.

Lemma later_minus_one_step n r s y :
  (y * y) mod n <> n - 1 ->
  (later_minus_one n r s y <-> later_minus_one n (r + 1) s (y * y)).
Proof.
  intros Hne. split; intros [j [Hj E]].
  - destruct (Z.eq_dec j r) as [-> | Hjr].
    + exfalso. apply Hne. replace (r - r + 1) with 1 in E by ring.
      change (2 ^ 1) with 2 in E. rewrite Z.pow_2_r in E. exact E.
    + exists j. split; [ lia | ].
      replace (j - r + 1) with ((j - (r + 1) + 1) + 1) in E by ring.
      rewrite pow_two_succ in E by lia. exact E.
  - exists j. split; [ lia | ].
    replace (j - r + 1) with ((j - (r + 1) + 1) + 1) by ring.
    rewrite pow_two_succ by lia. exact E.
Qed.

(** ** The strong Fermat round in Montgomery form *)


(** The loops of the Montgomery engine, for any build whose multiplication
    is exact on Montgomery forms of the modulus at hand. *)
Section MontgomeryLoops.
Variable w : wide_arith.
Variables n n_inv : Z.
Hypothesis n_range : 2 < n < 2 ^ 64.
Hypothesis n_odd : Z.odd n = true.
Hypothesis mul_repr : forall u v,
  smc_mont_mul64 w (mont_form n u) (mont_form n v) n n_inv = mont_form n (u * v).

Lemma mont_pow64_loop_spec fuel : forall exp rho beta,
  0 <= exp < 2 ^ Z.of_nat fuel ->
  mont_pow64_loop w fuel (mont_form n rho) (mont_form n beta) exp n n_inv
  = Some (mont_form n (rho * beta ^ exp)).
Proof.
  induction fuel as [ | k IH ]; intros exp rho beta Hexp.
  - assert (exp = 0) by (change (2 ^ Z.of_nat 0) with 1 in Hexp; lia). subst exp.
    cbn. rewrite Z.mul_1_r. reflexivity.
  - cbn [mont_pow64_loop].
    destruct (exp >? 0) eqn:Hpos.
    + assert (Hp : 0 < exp) by lia.
      rewrite shiftr1, land_1_even, !mul_repr.
      assert (Hhalf : 0 <= exp / 2 < 2 ^ Z.of_nat k).
      { rewrite Nat2Z.inj_succ, Z.pow_succ_r in Hexp by lia.
        split; [ apply Z.div_pos; lia | apply Z.div_lt_upper_bound; lia ]. }
      assert (D := Z.div_mod exp 2 ltac:(lia)).
      destruct (Z.even exp) eqn:Hev.
      * rewrite IH by exact Hhalf. f_equal. f_equal.
        assert (exp mod 2 = 0) by (rewrite Zeven_mod in Hev; now apply Z.eqb_eq in Hev).
        rewrite D at 2. rewrite H, Z.add_0_r, Z.pow_mul_r by lia.
        rewrite Z.pow_2_r. reflexivity.
      * rewrite IH by exact Hhalf. f_equal. f_equal.
        assert (exp mod 2 = 1).
        { apply odd_mod2. rewrite <- Z.negb_even, Hev. reflexivity. }
        rewrite D at 2. rewrite H, Z.pow_add_r, Z.pow_mul_r, Z.pow_1_r by lia.
        rewrite Z.pow_2_r. ring.
    + assert (exp = 0) by lia. subst exp.
      rewrite Z.pow_0_r, Z.mul_1_r. reflexivity.
Qed.

Lemma sprp64_modulus_range : 1 < n < 2 ^ 64.
Proof. lia. Qed.

Lemma mont_form_minus_one : mont_form n (n - 1) = n - mont_form n 1.
Proof.
  unfold mont_form. rewrite Z.mul_1_l.
  replace ((n - 1) * 2 ^ 64) with (- 2 ^ 64 + 2 ^ 64 * n) by ring.
  rewrite Z_mod_plus_full.
  apply Z.mod_opp_l_nz; [ lia | ].
  apply two64_mod_odd_nonzero; [ lia | exact n_odd ].
Qed.

Lemma mont_form_eq_one y : mont_form n y = mont_form n 1 <-> y mod n = 1.
Proof.
  rewrite (mont_form_inj n sprp64_modulus_range n_odd). rewrite (Z.mod_small 1 n) by lia.
  reflexivity.
Qed.

Lemma mont_form_eq_minus_one y :
  mont_form n y = mont_form n (n - 1) <-> y mod n = n - 1.
Proof.
  rewrite (mont_form_inj n sprp64_modulus_range n_odd). rewrite (Z.mod_small (n - 1) n) by lia.
  reflexivity.
Qed.

Lemma mont_sprp64_loop_spec s fuel : forall r y,
  1 <= r -> s < 2 ^ 32 -> (Z.to_nat (s - r) <= fuel)%nat ->
  exists b,
    mont_sprp64_loop w fuel r s (mont_form n y) n n_inv
      (mont_form n 1) (mont_form n (n - 1)) = Some b /\
    (b = true <-> later_minus_one n r s y).
Proof.
  induction fuel as [ | k IH ]; intros r y Hr Hs Hfuel.
  - cbn [mont_sprp64_loop].
    assert (Hge : (r <? s) = false) by (apply Z.ltb_ge; lia).
    rewrite Hge. exists false. split; [ reflexivity | ].
    split; [ discriminate | ].
    intros H. exfalso. revert H. apply later_minus_one_none. lia.
  - cbn [mont_sprp64_loop].
    destruct (r <? s) eqn:Hcmp.
    + apply Z.ltb_lt in Hcmp.
      rewrite mul_repr.
      destruct (Z.eqb_spec (mont_form n (y * y)) (mont_form n (n - 1))) as [E | NE].
      * exists true. split; [ reflexivity | ].
        split; [ intros _ | reflexivity ].
        apply later_minus_one_now; [ exact Hcmp | ].
        now apply mont_form_eq_minus_one.
      * rewrite mont_form_eq_minus_one in NE.
        destruct (Z.eqb_spec (mont_form n (y * y)) (mont_form n 1)) as [E1 | NE1].
        -- exists false. split; [ reflexivity | ].
           split; [ discriminate | ].
           intros H. exfalso. revert H.
           apply later_minus_one_stuck; [ lia | ].
           now apply mont_form_eq_one.
        -- rewrite u32_small by lia.
           destruct (IH (r + 1) (y * y)) as [b [Hb Hiff]]; try lia.
           exists b. split; [ exact Hb | ].
           rewrite Hiff. symmetry. now apply later_minus_one_step.
    + apply Z.ltb_ge in Hcmp.
      exists false. split; [ reflexivity | ].
      split; [ discriminate | ].
      intros H. exfalso. revert H. now apply later_minus_one_none.
Qed.
End MontgomeryLoops.

Lemma pow2_lt_64 d s n :
  0 < d -> 0 <= s -> n - 1 = d * 2 ^ s -> n <= 2 ^ 64 -> s < 64.
Proof.
  intros Hd Hs E Hn.
  destruct (Z_lt_le_dec s 64) as [Hlt | Hge]; [ exact Hlt | exfalso ].
  assert (2 ^ 64 <= 2 ^ s) by (apply Z.pow_le_mono_r; lia).
  nia.
Qed.

Lemma later_minus_one_from_one n a d s :
  0 <= d ->
  (later_minus_one n 1 s (a ^ d)
   <-> exists r, 1 <= r < s /\ a ^ (d * 2 ^ r) mod n = n - 1).
Proof.
  intros Hd. unfold later_minus_one.
  split; intros [j [Hj E]]; exists j; (split; [ lia | ]).
  - replace (j - 1 + 1) with j in E by ring.
    rewrite Z.pow_mul_r by (try apply Z.pow_nonneg; lia). exact E.
  - replace (j - 1 + 1) with j by ring.
    rewrite <- Z.pow_mul_r by (try apply Z.pow_nonneg; lia). exact E.
Qed.

Lemma strong_probable_prime_split n a d s :
  0 <= d -> 0 < s ->
  (strong_probable_prime n a d s
   <-> a ^ d mod n = 1 \/ a ^ d mod n = n - 1 \/ later_minus_one n 1 s (a ^ d)).
Proof.
  intros Hd Hs. rewrite later_minus_one_from_one by exact Hd.
  unfold strong_probable_prime. split.
  - intros [H | [r [Hr E]]]; [ now left | right ].
    destruct (Z.eq_dec r 0) as [-> | Hnz].
    + left. rewrite Z.pow_0_r, Z.mul_1_r in E. exact E.
    + right. exists r. split; [ lia | exact E ].
  - intros [H | [H | [r [Hr E]]]]; [ now left | right | right ].
    + exists 0. split; [ lia | ]. rewrite Z.pow_0_r, Z.mul_1_r. exact H.
    + exists r. split; [ lia | exact E ].
Qed.

(** The strong Fermat round of [smc_mont_sprp64] with the Montgomery context
    of [n], for a build whose multiplication and conversion are exact for
    this modulus. *)
Lemma mont_sprp64_build_spec w n a d s :
  3 <= n < 2 ^ 64 -> Z.odd n = true -> 0 <= a < 2 ^ 64 ->
  0 < d -> Z.odd d = true -> 0 <= s -> n - 1 = d * 2 ^ s ->
  (forall u v, smc_mont_mul64 w (mont_form n u) (mont_form n v) n (smc_mont_inv64 n)
               = mont_form n (u * v)) ->
  smc_to_mont64 w (a mod n) n = mont_form n a ->
  let f := smc_mont_sprp64 w n a (smc_mont_inv64 n) (smc_mont_one64 n) in
  (a mod n = 0 -> f = Some true) /\
  (a mod n <> 0 ->
   exists b, f = Some b /\ (b = true <-> strong_probable_prime n a d s)).
Proof.
  intros Hn Hodd Ha Hd Hdodd Hs E Hmul Ham f.
  assert (Hs64 : s < 64) by (apply (pow2_lt_64 d s n); lia).
  assert (Hspos : 0 < s).
  { destruct (Z.eq_dec s 0) as [-> | ]; [ exfalso | lia ].
    rewrite Z.pow_0_r, Z.mul_1_r in E.
    assert (Z.odd (n - 1) = true) by (rewrite E; exact Hdodd).
    rewrite Z.odd_sub, Hodd in H. discriminate. }
  destruct (mont_one64_facts n Hn Hodd) as (_ & Eone & _ & Eneg).
  assert (Eone' : smc_mont_one64 n = mont_form n 1)
    by (rewrite Eone; unfold mont_form; now rewrite Z.mul_1_l).
  assert (Eneg' : mont_neg_one64 n (smc_mont_one64 n) = mont_form n (n - 1)).
  { rewrite Eneg, Eone'. symmetry. apply mont_form_minus_one; [ lia | exact Hodd ]. }
  assert (Hf : f =
    if mont_form n a =? 0 then Some true
    else
      if (mont_form n (a ^ d) =? mont_form n 1)
         || (mont_form n (a ^ d) =? mont_form n (n - 1))
      then Some true
      else mont_sprp64_loop w 64 1 s (mont_form n (a ^ d)) n
             (smc_mont_inv64 n) (mont_form n 1) (mont_form n (n - 1))).
  { subst f. unfold smc_mont_sprp64.
    assert (Hop : odd_part 64 (u64 (n - 1)) 0 = Some (d, s)).
    { rewrite (u64_small (n - 1)) by lia. rewrite E.
      rewrite (odd_part_spec 64 d s 0) by (try assumption; lia).
      rewrite Z.add_0_l. reflexivity. }
    rewrite Hop.
    destruct (Z.eqb_spec n 0) as [H0 | _]; [ lia | ].
    rewrite Ham.
    destruct (mont_form n a =? 0); [ reflexivity | ].
    unfold smc_mont_pow64. rewrite Eneg', Eone'.
    assert (Hd64 : 0 <= d < 2 ^ Z.of_nat 64).
    { change (2 ^ Z.of_nat 64) with (2 ^ 64).
      assert (0 < 2 ^ s) by (apply Z.pow_pos_nonneg; lia).
      assert (d * 1 <= d * 2 ^ s) by (apply Z.mul_le_mono_nonneg_l; lia). lia. }
    rewrite (mont_pow64_loop_spec w n (smc_mont_inv64 n) Hmul 64 d 1 a Hd64).
    rewrite Z.mul_1_l. reflexivity. }
  rewrite Hf. clear Hf.
  split.
  - intros H0. apply (mont_form_zero n ltac:(lia) Hodd) in H0.
    rewrite H0. reflexivity.
  - intros Hnz.
    destruct (Z.eqb_spec (mont_form n a) 0) as [H0 | _].
    { exfalso. apply Hnz. now apply (mont_form_zero n ltac:(lia) Hodd). }
    assert (Hsplit := strong_probable_prime_split n a d s ltac:(lia) Hspos).
    destruct (Z.eqb_spec (mont_form n (a ^ d)) (mont_form n 1)) as [E1 | NE1].
    { exists true. split; [ reflexivity | ]. split; [ intros _ | reflexivity ].
      apply Hsplit. left. now apply (mont_form_eq_one n ltac:(lia) Hodd). }
    destruct (Z.eqb_spec (mont_form n (a ^ d)) (mont_form n (n - 1))) as [E2 | NE2].
    { exists true. split; [ reflexivity | ]. split; [ intros _ | reflexivity ].
      apply Hsplit. right. left.
      now apply (mont_form_eq_minus_one n ltac:(lia) Hodd). }
    cbn [orb].
    destruct (mont_sprp64_loop_spec w n (smc_mont_inv64 n) ltac:(lia) Hodd Hmul
                s 64 1 (a ^ d)) as [b [Hb Hiff]]; try lia.
    exists b. split; [ exact Hb | ].
    rewrite Hiff, Hsplit.
    rewrite (mont_form_eq_one n ltac:(lia) Hodd) in NE1.
    rewrite (mont_form_eq_minus_one n ltac:(lia) Hodd) in NE2.
    tauto.
Qed.

Lemma mont_sprp64_int128_spec n a d s :
  3 <= n < 2 ^ 64 -> Z.odd n = true -> 0 <= a < 2 ^ 64 ->
  0 < d -> Z.odd d = true -> 0 <= s -> n - 1 = d * 2 ^ s ->
  let f := smc_mont_sprp64 Int128 n a (smc_mont_inv64 n) (smc_mont_one64 n) in
  (a mod n = 0 -> f = Some true) /\
  (a mod n <> 0 ->
   exists b, f = Some b /\ (b = true <-> strong_probable_prime n a d s)).
Proof.
  intros Hn Hodd Ha Hd Hdodd Hs E.
  assert (Hinv : (n * smc_mont_inv64 n) mod 2 ^ 64 = 1)
    by (now apply mont_inv64_inverse).
  apply mont_sprp64_build_spec; try assumption.
  - intros u v. apply smc_mont_mul64_int128; [ lia | assumption | assumption ].
  - rewrite smc_to_mont64_int128.
    + apply mont_form_mod. lia.
    + lia.
    + pose proof (Z.mod_pos_bound a n ltac:(lia)). lia.
Qed.

(** ** The reference primality check *)

Lemma has_divisor_true fuel : forall k n,
  has_divisor fuel k n = true ->
  exists j, k <= j < k + Z.of_nat fuel /\ n mod j = 0.
Proof.
  induction fuel as [ | f IH ]; intros k n H; cbn [has_divisor] in H.
  - discriminate.
  - apply orb_true_iff in H. destruct H as [H | H].
    + exists k. split; [ lia | now apply Z.eqb_eq ].
    + destruct (IH _ _ H) as [j [Hj Hm]]. exists j. split; [ lia | exact Hm ].
Qed.

Lemma has_divisor_false fuel : forall k n j,
  has_divisor fuel k n = false ->
  k <= j < k + Z.of_nat fuel -> n mod j <> 0.
Proof.
  induction fuel as [ | f IH ]; intros k n j H Hj; cbn [has_divisor] in H.
  - lia.
  - apply orb_false_iff in H. destruct H as [H1 H2].
    destruct (Z.eq_dec j k) as [-> | Hne].
    + now apply Z.eqb_neq.
    + apply (IH (k + 1)); [ exact H2 | lia ].
Qed.

Lemma is_prime_b_sound n : is_prime_b n = true -> Z.prime n.
Proof.
  unfold is_prime_b. intros H. apply andb_true_iff in H. destruct H as [H1 H2].
  apply Z.ltb_lt in H1. apply negb_true_iff in H2.
  split; [ exact H1 | ].
  intros m Hm [q Hq].
  assert (Hsq := Z.sqrt_spec n ltac:(lia)).
  assert (Hs0 : 0 <= Z.sqrt n) by apply Z.sqrt_nonneg.
  set (r := Z.sqrt n) in *. cbv zeta in Hsq.
  assert (Hqn : 1 < q < n) by nia.
  assert (Hsmall : exists j, 2 <= j <= r /\ n mod j = 0).
  { destruct (Z_le_gt_dec m r) as [Hle | Hgt].
    - exists m. split; [ lia | ]. rewrite Hq. apply Z.mod_mul. lia.
    - exists q. split.
      + split; [ lia | ].
        destruct (Z_le_gt_dec q r) as [ | Hq' ]; [ assumption | exfalso ].
        assert ((r + 1) * (r + 1) <= q * m) by (apply Z.mul_le_mono_nonneg; lia).
        unfold Z.succ in Hsq. lia.
      + rewrite Hq, Z.mul_comm. apply Z.mod_mul. lia. }
  destruct Hsmall as [j [Hj Hmod]].
  apply (has_divisor_false _ _ _ j H2); [ | exact Hmod ].
  rewrite Z2Nat.id by lia. lia.
Qed.

Lemma is_prime_b_complete n : Z.prime n -> is_prime_b n = true.
Proof.
  intros [H1 H2]. unfold is_prime_b.
  apply andb_true_iff. split; [ now apply Z.ltb_lt | ].
  apply negb_true_iff.
  destruct (has_divisor _ 2 n) eqn:Hd; [ exfalso | reflexivity ].
  apply has_divisor_true in Hd. destruct Hd as [j [Hj Hm]].
  assert (Hsq := Z.sqrt_spec n ltac:(lia)).
  assert (Hs0 : 0 <= Z.sqrt n) by apply Z.sqrt_nonneg.
  set (r := Z.sqrt n) in *. cbv zeta in Hsq.
  assert (Hr : 1 <= r).
  { destruct (Z_le_gt_dec 1 r); [ assumption | ].
    assert (r = 0) by lia. rewrite H in Hsq. cbn in Hsq. lia. }
  rewrite Z2Nat.id in Hj by lia.
  apply (H2 j).
  - split; [ lia | ].
    assert (r * 2 <= r * r) by (apply Z.mul_le_mono_nonneg_l; lia). lia.
  - apply Z.mod_divide; [ lia | exact Hm ].
Qed.

Lemma is_prime_b_iff n : is_prime_b n = true <-> Z.prime n.
Proof. split; [ apply is_prime_b_sound | apply is_prime_b_complete ]. Qed.

Lemma table_primes_spec p : In p table_primes <-> Z.prime p /\ 3 <= p <= 331.
Proof.
  unfold table_primes. rewrite filter_In, in_map_iff, is_prime_b_iff.
  split.
  - intros [[k [Hk Hin]] Hp]. apply in_seq in Hin. split; [ exact Hp | lia ].
  - intros [Hp Hr]. split; [ | exact Hp ].
    exists (Z.to_nat p). split; [ lia | ]. apply in_seq. lia.
Qed.

Lemma table_primes_length : length table_primes = 66%nat.
Proof. vm_compute. reflexivity. Qed.

(** ** Trial division by multiplication with prime inverses *)

Lemma table_inverses : Forall2 is_inverse64 table_primes SMC_PRIME_INV64.
Proof.
  unfold SMC_PRIME_INV64.
  let l := eval vm_compute in table_primes in change table_primes with l.
  repeat (constructor; [ split; [ lia | reflexivity ] | ]).
  constructor.
Qed.

Lemma Forall2_combine_In {A B} (P : A -> B -> Prop) la lb :
  Forall2 P la lb -> forall a b, In (a, b) (combine la lb) -> P a b.
Proof.
  induction 1 as [ | x y la lb Hxy _ IH ]; intros a b Hin; cbn in Hin.
  - contradiction.
  - destruct Hin as [Heq | Hin]; [ inversion Heq; subst; exact Hxy | now apply IH ].
Qed.

Section PrimeInverse.
Variables p p_inv n : Z.
Hypothesis p_range : 3 <= p <= 331.
Hypothesis p_inv_ok : (p * p_inv) mod 2 ^ 64 = 1.
Hypothesis n_range : 0 < n < 55730344633563600.

Lemma prod_times_p : (u64 (n * p_inv) * p) mod 2 ^ 64 = n.
Proof.
  unfold u64. rewrite Z.mul_mod_idemp_l by lia.
  replace (n * p_inv * p) with (n * (p * p_inv)) by ring.
  rewrite <- Z.mul_mod_idemp_r, p_inv_ok, Z.mul_1_r by lia.
  apply Z.mod_small. lia.
Qed.

Lemma prod_is_one : u64 (n * p_inv) = 1 <-> n = p.
Proof.
  split; intros H.
  - pose proof prod_times_p as E. rewrite H, Z.mul_1_l, Z.mod_small in E by lia.
    now symmetry.
  - subst n. unfold u64. exact p_inv_ok.
Qed.

Lemma prod_below_n : u64 (n * p_inv) < n <-> (p | n).
Proof.
  pose proof (u64_range (n * p_inv)) as Hr.
  split; intros H.
  - pose proof prod_times_p as E.
    rewrite Z.mod_small in E by nia.
    exists (u64 (n * p_inv)). now symmetry.
  - destruct H as [k Hk].
    assert (Hkr : 0 < k < n) by nia.
    assert (E : u64 (n * p_inv) = k).
    { unfold u64. rewrite Hk.
      replace (k * p * p_inv) with (k * (p * p_inv)) by ring.
      rewrite <- Z.mul_mod_idemp_r, p_inv_ok, Z.mul_1_r by lia.
      apply Z.mod_small. lia. }
    lia.
Qed.
End PrimeInverse.

(** What each exit of the trial-division loop says about [n]. *)
Lemma trial_division64_exits l n :
  (forall p p_inv, In (p, p_inv) l -> 3 <= p <= 331 /\ (p * p_inv) mod 2 ^ 64 = 1) ->
  0 < n < 55730344633563600 ->
  match trial_division64 (map snd l) n with
  | Returned true => exists p, In p (map fst l) /\ n = p
  | Returned false => exists p, In p (map fst l) /\ (p | n) /\ n <> p
  | FellThrough => forall p, In p (map fst l) -> ~ (p | n)
  end.
Proof.
  intros Hl Hn. induction l as [ | [p p_inv] l IH ]; cbn [map snd fst trial_division64].
  - intros p [].
  - destruct (Hl p p_inv (or_introl eq_refl)) as [Hp Hinv].
    pose proof (prod_is_one p p_inv n Hp Hinv Hn) as H1.
    pose proof (prod_below_n p p_inv n Hp Hinv Hn) as H2.
    destruct (Z.eqb_spec (u64 (n * p_inv)) 1) as [E1 | NE1].
    + exists p. split; [ now left | now apply H1 ].
    + destruct (Z.ltb_spec (u64 (n * p_inv)) n) as [Hlt | Hge].
      * exists p. split; [ now left | ]. split; [ now apply H2 | ].
        intros ->. apply NE1. now apply H1.
      * assert (IH' := IH (fun q q_inv Hin => Hl q q_inv (or_intror Hin))).
        destruct (trial_division64 (map snd l) n) as [[ | ] | ].
        -- destruct IH' as [q [Hq E]]. exists q. split; [ now right | exact E ].
        -- destruct IH' as [q [Hq E]]. exists q. split; [ now right | exact E ].
        -- intros q [<- | Hq]; [ | now apply IH' ].
           intros Hdiv. apply H2 in Hdiv. lia.
Qed.

Lemma table_pairs_ok p p_inv :
  In (p, p_inv) (combine table_primes SMC_PRIME_INV64) ->
  3 <= p <= 331 /\ (p * p_inv) mod 2 ^ 64 = 1.
Proof.
  intros Hin.
  pose proof (Forall2_combine_In _ _ _ table_inverses p p_inv Hin) as [_ Hinv].
  apply in_combine_l in Hin. apply table_primes_spec in Hin.
  split; [ lia | exact Hinv ].
Qed.

Lemma table_pairs_snd : map snd (combine table_primes SMC_PRIME_INV64) = SMC_PRIME_INV64.
Proof. vm_compute. reflexivity. Qed.

Lemma table_pairs_fst : map fst (combine table_primes SMC_PRIME_INV64) = table_primes.
Proof. vm_compute. reflexivity. Qed.

Lemma trial_division64_table n :
  0 < n < 55730344633563600 ->
  match trial_division64 SMC_PRIME_INV64 n with
  | Returned true => exists p, In p table_primes /\ n = p
  | Returned false => exists p, In p table_primes /\ (p | n) /\ n <> p
  | FellThrough => forall p, In p table_primes -> ~ (p | n)
  end.
Proof.
  intros Hn.
  pose proof (trial_division64_exits _ n table_pairs_ok Hn) as H.
  rewrite table_pairs_snd, table_pairs_fst in H. exact H.
Qed.

Lemma proper_divisor_not_prime p n : 1 < p -> (p | n) -> n <> p -> 0 < n -> ~ Z.prime n.
Proof.
  intros Hp Hdiv Hne Hn [_ Hprime].
  apply (Hprime p); [ | exact Hdiv ].
  assert (p <= n) by (apply Z.divide_pos_le; assumption). lia.
Qed.

(** C4: the 66 constants of [SMC_PRIME_INV64] are the inverses modulo 2^64
    of the primes 3..331, in order; for odd [n] with
    [9 <= n < 55730344633563600] and each such prime [p], the product
    [n * p_inv mod 2^64] is 1 exactly when [n = p] and is below [n] exactly
    when [p] divides [n]; hence the loop returns [true] exactly when [n] is
    one of these primes, returns [false] exactly when [n] is not one of them
    and one of them divides it, and runs to its end exactly when none
    divides [n]; so [return true] means [n] is prime and [return false] means
    it is not. *)
Theorem prime_inverse_trial_division :
  Forall2 is_inverse64 table_primes SMC_PRIME_INV64 /\
  length SMC_PRIME_INV64 = SMC_NUM_PRIME_INV64 /\
  forall n, Z.odd n = true -> 9 <= n < 55730344633563600 ->
    (forall p p_inv, In (p, p_inv) (combine table_primes SMC_PRIME_INV64) ->
       (u64 (n * p_inv) = 1 <-> n = p) /\ (u64 (n * p_inv) < n <-> (p | n))) /\
    (trial_division64 SMC_PRIME_INV64 n = Returned true <-> In n table_primes) /\
    (trial_division64 SMC_PRIME_INV64 n = Returned false <->
     ~ In n table_primes /\ exists p, In p table_primes /\ (p | n)) /\
    (trial_division64 SMC_PRIME_INV64 n = FellThrough <->
     forall p, In p table_primes -> ~ (p | n)) /\
    (trial_division64 SMC_PRIME_INV64 n = Returned true -> Z.prime n) /\
    (trial_division64 SMC_PRIME_INV64 n = Returned false -> ~ Z.prime n).
Proof.
  split; [ exact table_inverses | ]. split; [ reflexivity | ].
  intros n _ Hn.
  assert (Hself : In n table_primes -> forall p, In p table_primes -> (p | n) -> n = p).
  { intros Hin p Hp Hdiv.
    apply table_primes_spec in Hin. apply table_primes_spec in Hp.
    destruct (Z.eq_dec n p) as [ | Hne ]; [ assumption | exfalso ].
    destruct Hin as [Hprime _]. revert Hprime.
    apply (proper_divisor_not_prime p n); try assumption; lia. }
  pose proof (trial_division64_table n ltac:(lia)) as T.
  split.
  { intros p p_inv Hin. destruct (table_pairs_ok p p_inv Hin) as [Hp Hinv].
    split; [ apply prod_is_one | apply prod_below_n ]; try assumption; lia. }
  destruct (trial_division64 SMC_PRIME_INV64 n) as [[ | ] | ].
  - destruct T as [p [Hp ->]].
    split; [ split; [ intros _; exact Hp | reflexivity ] | ].
    split; [ split; [ discriminate | intros [Hnot _]; now elim Hnot ] | ].
    split; [ split; [ discriminate | ] | ].
    { intros Hno. elim (Hno p Hp). apply Z.divide_refl. }
    split; [ | discriminate ].
    intros _. now apply table_primes_spec in Hp.
  - destruct T as [p [Hp [Hdiv Hne]]].
    assert (Hnot : ~ In n table_primes).
    { intros Hin. apply Hne. now apply (Hself Hin p). }
    split; [ split; [ discriminate | intros Hin; now elim Hnot ] | ].
    split; [ split; [ intros _ | reflexivity ] | ].
    { split; [ exact Hnot | ]. exists p. split; assumption. }
    split; [ split; [ discriminate | ] | ].
    { intros Hno. elim (Hno p Hp). exact Hdiv. }
    split; [ discriminate | ].
    intros _. apply table_primes_spec in Hp.
    apply (proper_divisor_not_prime p n); try assumption; lia.
  - split; [ split; [ discriminate | ] | ].
    { intros Hin. elim (T n Hin). apply Z.divide_refl. }
    split; [ split; [ discriminate | ] | ].
    { intros [_ [p [Hp Hdiv]]]. elim (T p Hp). exact Hdiv. }
    split; [ split; [ intros _; exact T | reflexivity ] | ].
    split; discriminate.
Qed.

Lemma prime_inverse_trial_division_witness :
  Z.odd 1000001 = true /\ 9 <= 1000001 < 55730344633563600 /\
  trial_division64 SMC_PRIME_INV64 1000001 = Returned false /\
  ~ Z.prime 1000001.
Proof.
  split; [ reflexivity | split; [ lia | ] ].
  destruct prime_inverse_trial_division as (_ & _ & H).
  destruct (H 1000001 eq_refl ltac:(lia)) as (_ & _ & Hfalse & _ & _ & Hcomposite).
  assert (Hret : trial_division64 SMC_PRIME_INV64 1000001 = Returned false).
  { apply Hfalse. split.
    - intros Hin. apply table_primes_spec in Hin. lia.
    - exists 101. split.
      + apply table_primes_spec. split; [ | lia ].
        apply is_prime_b_sound. reflexivity.
      + exists 9901. reflexivity. }
  split; [ exact Hret | exact (Hcomposite Hret) ].
Defined.

(** ** The build without [__int128] *)

Lemma prime_4295368639 : Z.prime 4295368639.
Proof. apply is_prime_b_sound. vm_compute. reflexivity. Qed.

Lemma prime_4295393761 : Z.prime 4295393761.
Proof. apply is_prime_b_sound. vm_compute. reflexivity. Qed.

(** The carry of [smc_mont_mul64] on that build counts one overflow twice:
    the high word of [(2^33 - 1) * (2^32 - 1)] is 1, the emulation gives 2. *)
Example smc_mont_mul64_emulated_carry :
  let n := 18446744073709551557 in
  let a := 8589934591 in
  let b := 4294967295 in
  a * b / 2 ^ 64 = 1 /\
  smc_mont_mul64 Int128 a b n (smc_mont_inv64 n) = 16883460677414082751 /\
  smc_mont_mul64 Emulated a b n (smc_mont_inv64 n) = 16883460677414082752.
Proof. vm_compute. repeat split. Qed.

(** C1: [smc_is_prime64] is to answer [true] for every prime.  On a build
    without [__int128] it answers [false] for the prime 4295368639, which
    the [__int128] build accepts. *)
Theorem smc_is_prime64_emulated_rejects_prime :
  Z.prime 4295368639 /\
  smc_is_prime64 Emulated 4295368639 = Some false /\
  smc_is_prime64 Int128 4295368639 = Some true.
Proof.
  split; [ exact prime_4295368639 | ].
  split; vm_compute; reflexivity.
Qed.

(** C5: the strong Fermat round is to pass exactly on strong probable
    primes.  With [n = 4295368639], [n - 1 = 2147684319 * 2] and base 2 the
    condition holds, and [smc_mont_sprp64] on a build without [__int128]
    returns [false]. *)
Theorem smc_mont_sprp64_emulated_fails :
  let n := 4295368639 in
  n - 1 = 2147684319 * 2 ^ 1 /\ Z.odd 2147684319 = true /\ 2 mod n <> 0 /\
  strong_probable_prime n 2 2147684319 1 /\
  smc_mont_sprp64 Emulated n 2 (smc_mont_inv64 n) (smc_mont_one64 n) = Some false /\
  smc_mont_sprp64 Int128 n 2 (smc_mont_inv64 n) (smc_mont_one64 n) = Some true.
Proof.
  intros n.
  assert (Hi : smc_mont_sprp64 Int128 n 2 (smc_mont_inv64 n) (smc_mont_one64 n)
               = Some true) by (vm_compute; reflexivity).
  split; [ reflexivity | ]. split; [ reflexivity | ].
  split; [ vm_compute; discriminate | ].
  split; [ | split; [ vm_compute; reflexivity | exact Hi ] ].
  destruct (mont_sprp64_int128_spec n 2 2147684319 1) as [_ H];
    try reflexivity; try (subst n; lia).
  destruct H as [b [Hb Hiff]]; [ vm_compute; discriminate | ].
  rewrite Hi in Hb. inversion Hb; subst b. now apply Hiff.
Qed.

(** C7: [smc_is_prime64_wc] is to agree with [smc_is_prime64].  On a build
    without [__int128] they differ on the prime 4295393761. *)
Theorem smc_is_prime64_wc_emulated_differs :
  Z.prime 4295393761 /\
  smc_is_prime64 Emulated 4295393761 = Some true /\
  smc_is_prime64_wc Emulated 4295393761 = Some false.
Proof.
  split; [ exact prime_4295393761 | ].
  split; vm_compute; reflexivity.
Qed.

(** C8: [smc_prev_prime64] is to return the largest prime not above its
    argument.  On a build without [__int128] it steps over the prime
    4295368639 and returns 4295368621. *)
Theorem smc_prev_prime64_emulated_skips_prime :
  Z.prime 4295368639 /\
  smc_prev_prime64 Emulated 9 4295368639 = Some 4295368621 /\
  smc_prev_prime64 Int128 9 4295368639 = Some 4295368639.
Proof.
  split; [ exact prime_4295368639 | ].
  split; vm_compute; reflexivity.
Qed.

(** C9: navigation is to be idempotent on primes.  On a build without
    [__int128], [smc_next_prime64] moves the prime 4295368639 on to
    4295368661. *)
Theorem smc_next_prime64_emulated_moves_prime :
  Z.prime 4295368639 /\
  smc_next_prime64 Emulated 11 4295368639 = Some 4295368661 /\
  smc_next_prime64 Int128 11 4295368639 = Some 4295368639.
Proof.
  split; [ exact prime_4295368639 | ].
  split; vm_compute; reflexivity.
Qed.

Import Prime32.

(** ** The 32-bit modular primitives *)

Lemma smc_mulmod32_spec a b m :
  0 <= a < 2 ^ 32 -> 0 <= b < 2 ^ 32 -> 0 < m < 2 ^ 32 ->
  smc_mulmod32 a b m = (a * b) mod m.
Proof.
  intros Ha Hb Hm. unfold smc_mulmod32.
  rewrite u64_small by (change (2 ^ 64) with (2 ^ 32 * 2 ^ 32); nia).
  apply u32_small.
  pose proof (Z.mod_pos_bound (a * b) m ltac:(lia)). lia.
Qed.

Lemma powmod32_loop_spec m fuel : forall b r a,
  0 < m < 2 ^ 32 -> 0 <= b < 2 ^ Z.of_nat fuel ->
  0 <= r < 2 ^ 32 -> 0 <= a < m ->
  (b = 0 -> r < m) ->
  powmod32_loop fuel r a b m = Some (if b =? 0 then r else (r * a ^ b) mod m).
Proof.
  induction fuel as [ | k IH ]; intros b r a Hm Hb Hr Ha Hr0.
  - assert (b = 0) by (change (2 ^ Z.of_nat 0) with 1 in Hb; lia). subst b.
    reflexivity.
  - cbn [powmod32_loop].
    destruct (Z.eqb_spec b 0) as [-> | Hnz]; [ reflexivity | ].
    rewrite shiftr1, land_1_even.
    assert (Hhalf : 0 <= b / 2 < 2 ^ Z.of_nat k).
    { rewrite Nat2Z.inj_succ, Z.pow_succ_r in Hb by lia.
      split; [ apply Z.div_pos; lia | apply Z.div_lt_upper_bound; lia ]. }
    assert (D := Z.div_mod b 2 ltac:(lia)).
    assert (Hmul : forall x y, 0 <= x < 2 ^ 32 -> 0 <= y < m ->
                     smc_mulmod32 x y m = (x * y) mod m)
      by (intros; apply smc_mulmod32_spec; lia).
    assert (Hmr : forall x, 0 <= x mod m < m) by (intros; apply Z.mod_pos_bound; lia).
    set (r' := if Z.even b then r else smc_mulmod32 r a m).
    assert (Hr' : 0 <= r' < 2 ^ 32 /\ (r' * (a * a) ^ (b / 2)) mod m = (r * a ^ b) mod m
                  /\ (b / 2 = 0 -> r' = (r * a ^ b) mod m)).
    { subst r'. destruct (Z.even b) eqn:Hev.
      - assert (b mod 2 = 0) by (rewrite Zeven_mod in Hev; now apply Z.eqb_eq in Hev).
        split; [ lia | ]. split; [ | lia ].
        rewrite D at 2. rewrite H, Z.add_0_r, Z.pow_mul_r, Z.pow_2_r by lia. reflexivity.
      - assert (b mod 2 = 1) by (apply odd_mod2; rewrite <- Z.negb_even, Hev; reflexivity).
        rewrite Hmul by lia.
        split; [ specialize (Hmr (r * a)); lia | ]. split.
        + rewrite Z.mul_mod_idemp_l by lia.
          rewrite D at 2. rewrite H, Z.pow_add_r, Z.pow_mul_r, Z.pow_1_r, Z.pow_2_r by lia.
          f_equal. ring.
        + intros H0. assert (b = 1) by lia. subst b. now rewrite Z.pow_1_r. }
    destruct Hr' as (Hr1 & Hr2 & Hr3).
    destruct (Z.eqb_spec (b / 2) 0) as [E0 | NE0].
    + rewrite IH; try lia.
      * rewrite E0. cbn. f_equal. now apply Hr3.
      * intros _. rewrite (Hr3 E0). apply Hmr.
    + rewrite Hmul by lia. rewrite IH; try lia; [ | apply Hmr ].
      destruct (Z.eqb_spec (b / 2) 0) as [ | _ ]; [ contradiction | ].
      f_equal. rewrite <- Z.mul_mod_idemp_r, Z.mod_pow_l, Z.mul_mod_idemp_r by lia.
      exact Hr2.
Qed.

Lemma powmod32_spec a b m :
  0 <= a < 2 ^ 32 -> 0 <= b < 2 ^ 32 -> 1 < m < 2 ^ 32 ->
  smc_powmod32 a b m = Some (a ^ b mod m).
Proof.
  intros Ha Hb Hm. unfold smc_powmod32.
  rewrite (powmod32_loop_spec m 32); try lia;
    try (pose proof (Z.mod_pos_bound a m ltac:(lia)); lia).
  f_equal. destruct (Z.eqb_spec b 0) as [-> | _].
  - rewrite Z.pow_0_r, Z.mod_small by lia. reflexivity.
  - rewrite Z.mul_1_l, Z.mod_pow_l. reflexivity.
Qed.

(** For a modulus [m >= 2] and 32-bit operands, [smc_powmod32] returns
    [a^b mod m]; with [b = 0] it returns 1 whatever the modulus. *)
Theorem smc_powmod32_correct a b m :
  0 <= a < 2 ^ 32 -> 0 <= b < 2 ^ 32 -> 0 < m < 2 ^ 32 ->
  (1 < m -> smc_powmod32 a b m = Some (a ^ b mod m)) /\
  smc_powmod32 a 0 m = Some 1.
Proof.
  intros Ha Hb Hm. split; [ intros H1; apply powmod32_spec; lia | reflexivity ].
Qed.

Lemma smc_powmod32_correct_witness :
  (0 <= 7 < 2 ^ 32) /\ (0 <= 560 < 2 ^ 32) /\ (0 < 561 < 2 ^ 32) /\
  smc_powmod32 7 560 561 = Some (7 ^ 560 mod 561).
Proof.
  split; [ lia | split; [ lia | split; [ lia | ] ] ].
  apply (smc_powmod32_correct 7 560 561); lia.
Defined.

(** ** The strong Fermat round on 32-bit words *)

Lemma later_minus_one_mod n r s y :
  1 < n -> (later_minus_one n r s (y mod n) <-> later_minus_one n r s y).
Proof.
  intros Hn. unfold later_minus_one.
  split; intros [j [Hj E]]; exists j; (split; [ exact Hj | ]).
  - rewrite Z.mod_pow_l in E. exact E.
  - rewrite Z.mod_pow_l. exact E.
Qed.

Lemma sprp32_loop_spec n s fuel : forall r y,
  2 < n < 2 ^ 32 -> 1 <= r -> s < 2 ^ 32 -> (Z.to_nat (s - r) <= fuel)%nat ->
  0 <= y < n ->
  exists b, sprp32_loop fuel r s y n = Some b /\
            (b = true <-> later_minus_one n r s y).
Proof.
  induction fuel as [ | k IH ]; intros r y Hn Hr Hs Hfuel Hy.
  - cbn [sprp32_loop].
    assert (Hge : (r <? s) = false) by (apply Z.ltb_ge; lia).
    rewrite Hge. exists false. split; [ reflexivity | ].
    split; [ discriminate | ].
    intros H. exfalso. revert H. apply later_minus_one_none. lia.
  - cbn [sprp32_loop].
    destruct (r <? s) eqn:Hcmp.
    + apply Z.ltb_lt in Hcmp.
      rewrite smc_mulmod32_spec by lia.
      rewrite (u32_small (n - 1)) by lia.
      pose proof (Z.mod_pos_bound (y * y) n ltac:(lia)) as Hsq.
      destruct (Z.eqb_spec ((y * y) mod n) (n - 1)) as [E | NE].
      * exists true. split; [ reflexivity | ].
        split; [ intros _ | reflexivity ].
        now apply later_minus_one_now.
      * destruct (Z.eqb_spec ((y * y) mod n) 1) as [E1 | NE1].
        -- exists false. split; [ reflexivity | ].
           split; [ discriminate | ].
           intros H. exfalso. revert H.
           apply later_minus_one_stuck; [ lia | exact E1 ].
        -- rewrite u32_small by lia.
           destruct (IH (r + 1) ((y * y) mod n)) as [b [Hb Hiff]]; try lia.
           exists b. split; [ exact Hb | ].
           rewrite Hiff, later_minus_one_mod by lia.
           symmetry. now apply later_minus_one_step.
    + apply Z.ltb_ge in Hcmp.
      exists false. split; [ reflexivity | ].
      split; [ discriminate | ].
      intros H. exfalso. revert H. now apply later_minus_one_none.
Qed.

Lemma pow2_lt_32 d s n :
  0 < d -> 0 <= s -> n - 1 = d * 2 ^ s -> n <= 2 ^ 32 -> s < 32.
Proof.
  intros Hd Hs E Hn.
  destruct (Z_lt_le_dec s 32) as [Hlt | Hge]; [ exact Hlt | exfalso ].
  assert (2 ^ 32 <= 2 ^ s) by (apply Z.pow_le_mono_r; lia).
  nia.
Qed.

Lemma even_part_positive n d s :
  Z.odd n = true -> Z.odd d = true -> 0 <= s -> n - 1 = d * 2 ^ s -> 0 < s.
Proof.
  intros Hodd Hdodd Hs E.
  destruct (Z.eq_dec s 0) as [-> | ]; [ exfalso | lia ].
  rewrite Z.pow_0_r, Z.mul_1_r in E.
  assert (H : Z.odd (n - 1) = true) by (rewrite E; exact Hdodd).
  rewrite Z.odd_sub, Hodd in H. discriminate.
Qed.

Lemma odd_part_bound d s n :
  0 < d -> 0 <= s -> n - 1 = d * 2 ^ s -> d <= n - 1.
Proof.
  intros Hd Hs E.
  assert (0 < 2 ^ s) by (apply Z.pow_pos_nonneg; lia).
  assert (d * 1 <= d * 2 ^ s) by (apply Z.mul_le_mono_nonneg_l; lia). lia.
Qed.

Lemma sprp32_spec n a d s :
  3 <= n < 2 ^ 32 -> Z.odd n = true -> 0 <= a < 2 ^ 32 ->
  0 < d -> Z.odd d = true -> 0 <= s -> n - 1 = d * 2 ^ s ->
  (a mod n = 0 -> smc_sprp32 n a = Some true) /\
  (a mod n <> 0 ->
   exists b, smc_sprp32 n a = Some b /\ (b = true <-> strong_probable_prime n a d s)).
Proof.
  intros Hn Hodd Ha Hd Hdodd Hs E.
  assert (Hs32 : s < 32) by (apply (pow2_lt_32 d s n); lia).
  assert (Hspos : 0 < s) by (apply (even_part_positive n d s); assumption).
  assert (Hdn : d <= n - 1) by (apply (odd_part_bound d s n); assumption).
  assert (Hop : odd_part 32 (u32 (n - 1)) 0 = Some (d, s)).
  { rewrite (u32_small (n - 1)) by lia. rewrite E.
    rewrite (odd_part_spec 32 d s 0) by (try assumption; lia).
    rewrite Z.add_0_l. reflexivity. }
  unfold smc_sprp32.
  destruct (Z.eqb_spec n 0) as [ | _ ]; [ lia | ].
  split.
  - intros H0. rewrite H0. reflexivity.
  - intros Hnz.
    destruct (Z.eqb_spec (a mod n) 0) as [ | _ ]; [ contradiction | ].
    rewrite Hop, powmod32_spec by lia.
    rewrite (u32_small (n - 1)) by lia.
    assert (Hsplit := strong_probable_prime_split n a d s ltac:(lia) Hspos).
    pose proof (Z.mod_pos_bound (a ^ d) n ltac:(lia)) as Hx.
    destruct (Z.eqb_spec (a ^ d mod n) 1) as [E1 | NE1].
    { exists true. split; [ reflexivity | ]. split; [ intros _ | reflexivity ].
      apply Hsplit. now left. }
    destruct (Z.eqb_spec (a ^ d mod n) (n - 1)) as [E2 | NE2].
    { exists true. split; [ reflexivity | ]. split; [ intros _ | reflexivity ].
      apply Hsplit. right. now left. }
    cbn [orb].
    destruct (sprp32_loop_spec n s 32 1 (a ^ d mod n)) as [b [Hb Hiff]]; try lia.
    exists b. split; [ exact Hb | ].
    rewrite Hiff, later_minus_one_mod, Hsplit by lia. tauto.
Qed.

(** One round of [smc_sprp32] for an odd 32-bit [n >= 3] with
    [n - 1 = d * 2^s], [d] odd: it passes when [a mod n = 0] and otherwise
    exactly when [a^d = 1] or [a^(d*2^r) = n-1] modulo [n] for some
    [0 <= r < s]. *)
Theorem smc_sprp32_correct n a d s :
  3 <= n < 2 ^ 32 -> Z.odd n = true -> 0 <= a < 2 ^ 32 ->
  0 < d -> Z.odd d = true -> 0 <= s -> n - 1 = d * 2 ^ s ->
  (a mod n = 0 -> smc_sprp32 n a = Some true) /\
  (a mod n <> 0 ->
   exists b, smc_sprp32 n a = Some b /\ (b = true <-> strong_probable_prime n a d s)).
Proof. apply sprp32_spec. Qed.

Lemma smc_sprp32_correct_witness :
  (3 <= 2047 < 2 ^ 32) /\ Z.odd 2047 = true /\ (0 <= 2 < 2 ^ 32) /\
  (0 < 1023) /\ Z.odd 1023 = true /\ (0 <= 1) /\ 2047 - 1 = 1023 * 2 ^ 1 /\
  2 mod 2047 <> 0 /\
  exists b, smc_sprp32 2047 2 = Some b /\
            (b = true <-> strong_probable_prime 2047 2 1023 1).
Proof.
  repeat (split; [ first [ lia | reflexivity | discriminate ] | ]).
  apply (smc_sprp32_correct 2047 2 1023 1); first [ lia | reflexivity | discriminate ].
Defined.

(** ** The emulated 128-bit product *)

Lemma shiftl32_word p : u64 (Z.shiftl p 32) = u32 p * 2 ^ 32.
Proof.
  rewrite Z.shiftl_mul_pow2 by lia. unfold u64, u32.
  change (2 ^ 64) with (2 ^ 32 * 2 ^ 32).
  apply Z.mul_mod_distr_r; lia.
Qed.

(** The words that the emulated [smc_mont_mul64] hands to the reduction. *)
Lemma mul_emulated_words a b n n_inv :
  0 <= a < 2 ^ 64 -> 0 <= b < 2 ^ 64 ->
  smc_mont_mul64 Emulated a b n n_inv =
  smc_mont_reduce64 Emulated (u64 (a * b))
    (a * b / 2 ^ 64 + Z.b2z (double_counted_carry a b)) n n_inv.
Proof.
  intros Ha Hb. unfold smc_mont_mul64, double_counted_carry, mid_column.
  destruct (partial_products a b Ha Hb) as (H0 & H1 & H2 & H3 & E).
  set (a_lo := u32 a) in *. set (a_hi := Z.shiftr a 32) in *.
  set (b_lo := u32 b) in *. set (b_hi := Z.shiftr b 32) in *.
  rewrite (u64_small (a_lo * b_lo)), (u64_small (a_lo * b_hi)),
    (u64_small (a_hi * b_lo)), (u64_small (a_hi * b_hi)) by lia.
  set (p0 := a_lo * b_lo) in *. set (p1 := a_lo * b_hi) in *.
  set (p2 := a_hi * b_lo) in *. set (p3 := a_hi * b_hi) in *.
  clearbody p0 p1 p2 p3. clear a_lo a_hi b_lo b_hi.
  rewrite !shiftl32_word, !shiftr32. unfold u32.
  assert (D0 := Z.div_mod p0 (2 ^ 32) ltac:(lia)).
  assert (D1 := Z.div_mod p1 (2 ^ 32) ltac:(lia)).
  assert (D2 := Z.div_mod p2 (2 ^ 32) ltac:(lia)).
  assert (M0 := Z.mod_pos_bound p0 (2 ^ 32) ltac:(lia)).
  assert (M1 := Z.mod_pos_bound p1 (2 ^ 32) ltac:(lia)).
  assert (M2 := Z.mod_pos_bound p2 (2 ^ 32) ltac:(lia)).
  set (A := p0 / 2 ^ 32) in *. set (L := p0 mod 2 ^ 32) in *.
  set (B := p1 mod 2 ^ 32) in *. set (C := p2 mod 2 ^ 32) in *.
  set (h1 := p1 / 2 ^ 32) in *. set (h2 := p2 / 2 ^ 32) in *.
  clearbody A L B C h1 h2.
  rewrite (u64_small (A + B)), (u64_small (A + B + C)) by lia.
  assert (Dc := Z.div_mod (A + B + C) (2 ^ 32) ltac:(lia)).
  assert (Mc := Z.mod_pos_bound (A + B + C) (2 ^ 32) ltac:(lia)).
  set (c := (A + B + C) / 2 ^ 32) in *. set (rem := (A + B + C) mod 2 ^ 32) in *.
  clearbody c rem.
  assert (T : a * b = (p3 + h1 + h2 + c) * 2 ^ 64 + (rem * 2 ^ 32 + L)) by lia.
  assert (Hq : a * b / 2 ^ 64 = p3 + h1 + h2 + c).
  { symmetry. apply (Z.div_unique_pos _ _ _ (rem * 2 ^ 32 + L)); lia. }
  assert (Hm : u64 (a * b) = rem * 2 ^ 32 + L).
  { unfold u64. symmetry. apply (Z.mod_unique_pos _ _ (p3 + h1 + h2 + c)); lia. }
  assert (Hub : a * b < 2 ^ 64 * 2 ^ 64) by nia.
  assert (Hlt : p3 + h1 + h2 + c < 2 ^ 64).
  { rewrite <- Hq. apply Z.div_lt_upper_bound; lia. }
  assert (Hlo : u64 (u64 (p0 + B * 2 ^ 32) + C * 2 ^ 32) = rem * 2 ^ 32 + L).
  { unfold u64. rewrite Z.add_mod_idemp_l by lia.
    symmetry. apply (Z.mod_unique_pos _ _ c); lia. }
  rewrite Hlo, Hq, Hm.
  rewrite (u64_small (p3 + h1)), (u64_small (p3 + h1 + h2)) by lia.
  f_equal.
  assert (Hc : c = 0 \/ c = 1 \/ c = 2) by lia.
  destruct (Z.ltb_spec (rem * 2 ^ 32 + L) p0) as [Hl | Hl];
    destruct (Z.geb_spec (A + B + C) 4294967296) as [Hg | Hg];
    destruct (Z.leb_spec (2 ^ 32) (A + B + C)) as [Hx | Hx];
    destruct (Z.ltb_spec (B + C) (2 ^ 32)) as [Hy | Hy];
    cbn [Z.b2z andb]; try lia; rewrite u64_small by lia; lia.
Qed.

Lemma mul_int128_words a b n n_inv :
  0 <= a < 2 ^ 64 -> 0 <= b < 2 ^ 64 ->
  smc_mont_mul64 Int128 a b n n_inv =
  smc_mont_reduce64 Int128 (u64 (a * b)) (a * b / 2 ^ 64) n n_inv.
Proof.
  intros Ha Hb. unfold smc_mont_mul64.
  assert (Hab : 0 <= a * b < 2 ^ 64 * 2 ^ 64) by nia.
  rewrite u128_small by (change (2 ^ 128) with (2 ^ 64 * 2 ^ 64); lia).
  rewrite shiftr64. rewrite (u64_small (a * b / 2 ^ 64)); [ reflexivity | ].
  split; [ apply Z.div_pos; lia | apply Z.div_lt_upper_bound; lia ].
Qed.

Lemma reduce_builds_agree x_lo x_hi n n_inv :
  0 <= n < 2 ^ 64 ->
  smc_mont_reduce64 Emulated x_lo x_hi n n_inv
  = smc_mont_reduce64 Int128 x_lo x_hi n n_inv.
Proof. intros Hn. now rewrite !smc_mont_reduce64_unfold. Qed.

Lemma no_double_count_small a b :
  0 <= a < 2 ^ 32 -> 0 <= b < 2 ^ 32 -> double_counted_carry a b = false.
Proof.
  intros Ha Hb. unfold double_counted_carry, mid_column.
  rewrite !shiftr32, (Z.div_small a), (Z.div_small b) by lia.
  rewrite Z.mul_0_r, Z.mul_0_l. change (u32 0) with 0.
  rewrite !u32_small by lia.
  assert (a * b / 2 ^ 32 < 2 ^ 32) by (apply Z.div_lt_upper_bound; nia).
  apply andb_false_iff. left. apply Z.leb_gt. lia.
Qed.

Lemma mul_builds_agree_small a b n n_inv :
  0 <= a < 2 ^ 32 -> 0 <= b < 2 ^ 32 -> 0 <= n < 2 ^ 64 ->
  smc_mont_mul64 Emulated a b n n_inv = smc_mont_mul64 Int128 a b n n_inv.
Proof.
  intros Ha Hb Hn.
  rewrite mul_emulated_words, mul_int128_words by lia.
  rewrite no_double_count_small by assumption.
  cbn [Z.b2z]. rewrite Z.add_0_r. now apply reduce_builds_agree.
Qed.

(** Multiplication on Montgomery forms is exact on either build as long as
    the emulated one only meets operands below 2^32. *)
Lemma mul_repr_build w n u v :
  1 < n < 2 ^ 64 -> Z.odd n = true -> (w = Emulated -> n <= 2 ^ 32) ->
  smc_mont_mul64 w (mont_form n u) (mont_form n v) n (smc_mont_inv64 n)
  = mont_form n (u * v).
Proof.
  intros Hn Hodd Hw.
  assert (Hinv : (n * smc_mont_inv64 n) mod 2 ^ 64 = 1) by (now apply mont_inv64_inverse).
  destruct w.
  - now apply smc_mont_mul64_int128.
  - specialize (Hw eq_refl).
    pose proof (mont_form_range n Hn u). pose proof (mont_form_range n Hn v).
    rewrite mul_builds_agree_small by lia.
    now apply smc_mont_mul64_int128.
Qed.

(** ** Conversion to Montgomery form by doubling *)

Lemma to_mont64_step_spec n r :
  0 < n <= 2 ^ 63 -> 0 <= r < n -> to_mont64_step n r = (r * 2) mod n.
Proof.
  intros Hn Hr. unfold to_mont64_step.
  rewrite Z.shiftl_mul_pow2 by lia. change (2 ^ 1) with 2.
  rewrite (u64_small (r * 2)) by lia.
  destruct (Z.geb_spec (r * 2) n) as [Hge | Hlt].
  - rewrite u64_small by lia.
    apply (Z.mod_unique_pos _ _ 1); lia.
  - symmetry. apply Z.mod_small. lia.
Qed.

Lemma to_mont64_iter_spec n x k :
  0 < n <= 2 ^ 63 ->
  Nat.iter k (to_mont64_step n) (x mod n) = (x * 2 ^ Z.of_nat k) mod n.
Proof.
  intros Hn. induction k as [ | k IH ].
  - change (2 ^ Z.of_nat 0) with 1. now rewrite Z.mul_1_r.
  - rewrite Nat.iter_succ, IH.
    rewrite to_mont64_step_spec by (try apply Z.mod_pos_bound; lia).
    rewrite Z.mul_mod_idemp_l by lia.
    rewrite Nat2Z.inj_succ, Z.pow_succ_r by lia. f_equal. ring.
Qed.

Lemma to_mont64_build w x n :
  0 <= x < 2 ^ 64 -> 0 < n < 2 ^ 64 -> (w = Emulated -> n <= 2 ^ 63) ->
  smc_to_mont64 w x n = mont_form n x.
Proof.
  intros Hx Hn Hw. destruct w.
  - unfold smc_to_mont64, mont_form.
    rewrite Z.shiftl_mul_pow2 by lia.
    rewrite u128_small by (change (2 ^ 128) with (2 ^ 64 * 2 ^ 64); nia).
    apply u64_small.
    pose proof (Z.mod_pos_bound (x * 2 ^ 64) n ltac:(lia)). lia.
  - specialize (Hw eq_refl). unfold smc_to_mont64.
    rewrite to_mont64_iter_spec by lia. reflexivity.
Qed.

(** ** Primes pass every strong Fermat round *)

Lemma square_root_of_one_prime n x :
  Z.prime n -> (x * x) mod n = 1 -> x mod n = 1 \/ x mod n = n - 1.
Proof.
  intros Hp H. pose proof (Z.prime_ge_2 n Hp) as Hn.
  assert (Hdiv : (n | (x - 1) * (x + 1))).
  { apply Z.mod_divide; [ lia | ].
    replace ((x - 1) * (x + 1)) with (x * x - 1) by ring.
    rewrite Zminus_mod, H, (Z.mod_small 1 n) by lia. reflexivity. }
  apply (Z.divide_prime_mul _ _ _ Hp) in Hdiv.
  destruct Hdiv as [[q Hq] | [q Hq]].
  - left. replace x with (1 + q * n) by lia.
    rewrite Z_mod_plus_full. apply Z.mod_small. lia.
  - right. replace x with ((n - 1) + (q - 1) * n) by lia.
    rewrite Z_mod_plus_full. apply Z.mod_small. lia.
Qed.

Lemma descend_to_minus_one n a d :
  Z.prime n -> 0 <= d ->
  forall k, 0 <= k -> a ^ (d * 2 ^ k) mod n = 1 ->
  a ^ d mod n = 1 \/ exists r, 0 <= r < k /\ a ^ (d * 2 ^ r) mod n = n - 1.
Proof.
  intros Hp Hd k Hk. pattern k. apply natlike_ind; [ | | exact Hk ].
  - rewrite Z.pow_0_r, Z.mul_1_r. now left.
  - clear k Hk. intros k Hk IH H.
    assert (E : a ^ (d * 2 ^ Z.succ k) = a ^ (d * 2 ^ k) * a ^ (d * 2 ^ k)).
    { rewrite Z.pow_succ_r by lia.
      replace (d * (2 * 2 ^ k)) with (d * 2 ^ k + d * 2 ^ k) by ring.
      apply Z.pow_add_r; apply Z.mul_nonneg_nonneg; try lia;
        apply Z.pow_nonneg; lia. }
    rewrite E in H.
    destruct (square_root_of_one_prime n _ Hp H) as [H1 | H1].
    + destruct (IH H1) as [H2 | [r [Hr H2]]]; [ now left | right ].
      exists r. split; [ lia | exact H2 ].
    + right. exists k. split; [ lia | exact H1 ].
Qed.

Lemma prime_strong_probable n a d s :
  Z.prime n -> a mod n <> 0 -> 0 <= d -> 0 <= s -> n - 1 = d * 2 ^ s ->
  strong_probable_prime n a d s.
Proof.
  intros Hp Ha Hd Hs E. unfold strong_probable_prime.
  apply (descend_to_minus_one n a d Hp Hd s Hs).
  rewrite <- E. now apply Z.fermat_nz.
Qed.

(** ** Every input is decomposed *)

Lemma odd_part_total fuel : forall d s0,
  0 < d < 2 ^ Z.of_nat fuel -> 0 <= s0 -> s0 + Z.of_nat fuel < 2 ^ 32 ->
  exists d' s,
    odd_part fuel d s0 = Some (d', s0 + s) /\
    0 < d' /\ Z.odd d' = true /\ 0 <= s /\ d = d' * 2 ^ s.
Proof.
  induction fuel as [ | k IH ]; intros d s0 Hd Hs0 Hlt.
  - change (2 ^ Z.of_nat 0) with 1 in Hd. lia.
  - cbn [odd_part]. rewrite land_1_even.
    destruct (Z.even d) eqn:Hev.
    + assert (Hm : d mod 2 = 0) by (rewrite Zeven_mod in Hev; now apply Z.eqb_eq in Hev).
      assert (D := Z.div_mod d 2 ltac:(lia)).
      rewrite Nat2Z.inj_succ, Z.pow_succ_r in Hd by lia.
      rewrite shiftr1, u32_small by lia.
      destruct (IH (d / 2) (s0 + 1)) as (d' & s & Hop & Hd' & Hodd & Hs & E); try lia.
      exists d', (s + 1). rewrite Hop.
      split; [ f_equal; f_equal; ring | ].
      repeat split; try assumption; try lia.
      rewrite Z.pow_add_r, Z.pow_1_r by lia. lia.
    + exists d, 0. rewrite Z.add_0_r, Z.pow_0_r, Z.mul_1_r.
      repeat split; try lia. rewrite <- Z.negb_even, Hev. reflexivity.
Qed.

Lemma odd_decomposition n :
  2 <= n < 2 ^ 64 ->
  exists d s, 0 < d /\ Z.odd d = true /\ 0 <= s /\ n - 1 = d * 2 ^ s.
Proof.
  intros Hn.
  destruct (odd_part_total 64 (n - 1) 0) as (d & s & _ & H);
    [ change (2 ^ Z.of_nat 64) with (2 ^ 64); lia | lia | cbn; lia | ].
  exists d, s. exact H.
Qed.

(** ** The round on either build *)

Lemma mont_sprp64_spec w n a d s :
  3 <= n < 2 ^ 64 -> Z.odd n = true -> exact_build w n -> 0 <= a < 2 ^ 64 ->
  0 < d -> Z.odd d = true -> 0 <= s -> n - 1 = d * 2 ^ s ->
  let f := smc_mont_sprp64 w n a (smc_mont_inv64 n) (smc_mont_one64 n) in
  (a mod n = 0 -> f = Some true) /\
  (a mod n <> 0 ->
   exists b, f = Some b /\ (b = true <-> strong_probable_prime n a d s)).
Proof.
  intros Hn Hodd Hw Ha Hd Hdodd Hs E.
  apply mont_sprp64_build_spec; try assumption.
  - intros u v. apply mul_repr_build; [ lia | assumption | exact Hw ].
  - rewrite to_mont64_build.
    + apply mont_form_mod. lia.
    + pose proof (Z.mod_pos_bound a n ltac:(lia)). lia.
    + lia.
    + intros Hem. specialize (Hw Hem). lia.
Qed.

Lemma mont_sprp64_prime w n a :
  Z.prime n -> 3 <= n < 2 ^ 64 -> exact_build w n -> 0 <= a < 2 ^ 64 ->
  smc_mont_sprp64 w n a (smc_mont_inv64 n) (smc_mont_one64 n) = Some true.
Proof.
  intros Hp Hn Hw Ha.
  assert (Hodd : Z.odd n = true).
  { destruct (Z.odd n) eqn:Ho; [ reflexivity | exfalso ].
    destruct Hp as [_ Hp]. apply (Hp 2); [ lia | ].
    apply Z.mod_divide; [ lia | ].
    rewrite <- Z.negb_even in Ho. apply negb_false_iff in Ho.
    rewrite Zeven_mod in Ho. now apply Z.eqb_eq in Ho. }
  destruct (odd_decomposition n ltac:(lia)) as (d & s & Hd & Hdodd & Hs & E).
  destruct (mont_sprp64_spec w n a d s Hn Hodd Hw Ha Hd Hdodd Hs E) as [H0 H1].
  destruct (Z.eq_dec (a mod n) 0) as [Hz | Hnz]; [ now apply H0 | ].
  destruct (H1 Hnz) as [b [Hb Hiff]]. rewrite Hb. f_equal.
  apply Hiff. apply prime_strong_probable; try assumption; lia.
Qed.

(** ** The decision function on primes *)

Lemma odd_of_land n : (Z.land n 1 =? 0) = false -> Z.odd n = true.
Proof. rewrite land_1_even, <- Z.negb_odd. now intros ->%negb_false_iff. Qed.

Lemma even_not_prime n : 2 < n -> (Z.land n 1 =? 0) = true -> ~ Z.prime n.
Proof.
  intros Hn H [_ Hp]. apply (Hp 2); [ lia | ].
  apply Z.mod_divide; [ lia | ].
  rewrite land_1_even, Zeven_mod in H. now apply Z.eqb_eq in H.
Qed.

Lemma multiple_not_prime p n : 1 < p < n -> n mod p = 0 -> ~ Z.prime n.
Proof.
  intros Hp H [_ Hn]. apply (Hn p); [ lia | ].
  apply Z.mod_divide; [ lia | exact H ].
Qed.

Lemma pseudoprime_3215031751 : ~ Z.prime 3215031751.
Proof. apply (multiple_not_prime 151); [ lia | reflexivity ]. Qed.

Lemma table_is_whole : firstn SMC_NUM_PRIME_INV64 SMC_PRIME_INV64 = SMC_PRIME_INV64.
Proof. reflexivity. Qed.

Lemma prefilter64_prime n : Z.prime n -> 9 <= n -> prefilter64 n <> Returned false.
Proof.
  intros Hp Hn. unfold prefilter64. rewrite table_is_whole.
  destruct (Z.ltb_spec n 55730344633563600) as [Hlt | Hge].
  - pose proof (trial_division64_table n ltac:(lia)) as T.
    destruct (trial_division64 SMC_PRIME_INV64 n) as [[ | ] | ]; try discriminate.
    + destruct T as [p [Hin [Hdiv Hne]]]. apply table_primes_spec in Hin.
      exfalso. revert Hp. apply (proper_divisor_not_prime p n); try assumption; lia.
    + destruct (n <? 109561); discriminate.
  - repeat match goal with
           | |- context [?x mod ?p =? 0] =>
               destruct (Z.eqb_spec (x mod p) 0) as [E | _];
               [ exfalso; revert Hp; apply (multiple_not_prime p); [ lia | exact E ] | ]
           end.
    discriminate.
Qed.

(** Resolving the breakpoint tests of the witness ladder. *)
Ltac ladder_cases :=
  repeat match goal with
         | |- context [if ?c then _ else _] => destruct c eqn:?
         end.

Lemma is_prime64_prime w n :
  Z.prime n -> n < 2 ^ 64 -> exact_build w n -> smc_is_prime64 w n = Some true.
Proof.
  intros Hp Hn Hw. pose proof (Z.prime_ge_2 n Hp) as H2.
  unfold smc_is_prime64.
  destruct (Z.ltb_spec n 2) as [ | _ ]; [ lia | ].
  destruct (Z.eqb_spec n 2) as [ | Hne2 ]; [ reflexivity | ].
  destruct (Z.land n 1 =? 0) eqn:Hev.
  { exfalso. revert Hp. apply even_not_prime; [ lia | exact Hev ]. }
  destruct (Z.ltb_spec n 9) as [ | H9 ]; [ reflexivity | ].
  pose proof (prefilter64_prime n Hp H9) as Hpre.
  destruct (prefilter64 n) as [[ | ] | ]; [ reflexivity | congruence | ].
  cbv zeta.
  rewrite !(mont_sprp64_prime w n _ Hp ltac:(lia) Hw) by lia.
  cbn [negb].
  ladder_cases; try reflexivity.
  exfalso. apply pseudoprime_3215031751.
  match goal with H : (n =? 3215031751) = true |- _ => apply Z.eqb_eq in H; now rewrite <- H end.
Qed.

Lemma witness_loop_prime w ws n :
  Z.prime n -> 3 <= n < 2 ^ 64 -> exact_build w n ->
  Forall (fun a => 0 <= a < 2 ^ 64) ws ->
  witness_loop w ws n (smc_mont_inv64 n) (smc_mont_one64 n) = Some true.
Proof.
  intros Hp Hn Hw Hws. induction Hws as [ | a ws Ha _ IH ]; cbn [witness_loop].
  - reflexivity.
  - rewrite (mont_sprp64_prime w n a Hp Hn Hw Ha). cbn [negb]. exact IH.
Qed.

Lemma witnesses_are_words : Forall (fun a => 0 <= a < 2 ^ 64) (firstn 12 witnesses).
Proof. cbn. repeat constructor; lia. Qed.

Lemma is_prime64_wc_prime w n :
  Z.prime n -> n < 2 ^ 64 -> exact_build w n -> smc_is_prime64_wc w n = Some true.
Proof.
  intros Hp Hn Hw. pose proof (Z.prime_ge_2 n Hp) as H2.
  unfold smc_is_prime64_wc.
  destruct (Z.ltb_spec n 2) as [ | _ ]; [ lia | ].
  destruct (Z.eqb_spec n 2) as [ | Hne2 ]; [ reflexivity | ].
  destruct (Z.land n 1 =? 0) eqn:Hev.
  { exfalso. revert Hp. apply even_not_prime; [ lia | exact Hev ]. }
  destruct (Z.ltb_spec n 9) as [ | H9 ]; [ reflexivity | ].
  destruct (Z.eqb_spec n 3215031751) as [-> | _ ].
  { exfalso. now apply pseudoprime_3215031751. }
  cbv zeta. apply witness_loop_prime; try assumption; [ lia | exact witnesses_are_words ].
Qed.

(** ** The decision function always answers *)

Lemma mont_pow64_loop_defined w n n_inv fuel : forall exp result base,
  0 <= exp < 2 ^ Z.of_nat fuel ->
  exists x, mont_pow64_loop w fuel result base exp n n_inv = Some x.
Proof.
  induction fuel as [ | k IH ]; intros exp result base Hexp; cbn [mont_pow64_loop].
  - change (2 ^ Z.of_nat 0) with 1 in Hexp.
    destruct (Z.gtb_spec exp 0); [ lia | eexists; reflexivity ].
  - destruct (Z.gtb_spec exp 0) as [Hpos | _]; [ | eexists; reflexivity ].
    apply IH. rewrite shiftr1.
    rewrite Nat2Z.inj_succ, Z.pow_succ_r in Hexp by lia.
    split; [ apply Z.div_pos; lia | apply Z.div_lt_upper_bound; lia ].
Qed.

Lemma mont_sprp64_loop_defined w n n_inv one neg_one s fuel : forall r x,
  0 <= r -> s < 2 ^ 32 -> (Z.to_nat (s - r) <= fuel)%nat ->
  exists b, mont_sprp64_loop w fuel r s x n n_inv one neg_one = Some b.
Proof.
  induction fuel as [ | k IH ]; intros r x Hr Hs Hfuel; cbn [mont_sprp64_loop].
  - destruct (Z.ltb_spec r s); [ lia | eexists; reflexivity ].
  - destruct (Z.ltb_spec r s) as [Hlt | _]; [ | eexists; reflexivity ].
    destruct (_ =? neg_one); [ eexists; reflexivity | ].
    destruct (_ =? one); [ eexists; reflexivity | ].
    rewrite u32_small by lia. apply IH; lia.
Qed.

Lemma mont_sprp64_defined w n a n_inv one :
  2 <= n < 2 ^ 64 -> exists b, smc_mont_sprp64 w n a n_inv one = Some b.
Proof.
  intros Hn. unfold smc_mont_sprp64.
  rewrite (u64_small (n - 1)) by lia.
  destruct (odd_part_total 64 (n - 1) 0) as (d & s & Hop & Hd & _ & Hs & E);
    [ change (2 ^ Z.of_nat 64) with (2 ^ 64); lia | lia | cbn; lia | ].
  rewrite Hop, Z.add_0_l.
  destruct (Z.eqb_spec n 0) as [ | _ ]; [ lia | ].
  destruct (_ =? 0); [ eexists; reflexivity | ].
  assert (Hd64 : 0 <= d < 2 ^ Z.of_nat 64).
  { change (2 ^ Z.of_nat 64) with (2 ^ 64).
    pose proof (odd_part_bound d s n Hd Hs E). lia. }
  unfold smc_mont_pow64.
  destruct (mont_pow64_loop_defined w n n_inv 64 d one
              (smc_to_mont64 w (a mod n) n) Hd64) as [x ->].
  destruct (_ || _); [ eexists; reflexivity | ].
  assert (s < 64) by (apply (pow2_lt_64 d s n); lia).
  apply mont_sprp64_loop_defined; lia.
Qed.

Lemma is_prime64_defined w n :
  0 <= n < 2 ^ 64 -> exists b, smc_is_prime64 w n = Some b.
Proof.
  intros Hn. unfold smc_is_prime64.
  destruct (n <? 2); [ eexists; reflexivity | ].
  destruct (n =? 2); [ eexists; reflexivity | ].
  destruct (Z.land n 1 =? 0); [ eexists; reflexivity | ].
  destruct (Z.ltb_spec n 9) as [ | H9 ]; [ eexists; reflexivity | ].
  destruct (prefilter64 n); [ eexists; reflexivity | ].
  cbv zeta.
  repeat match goal with
         | |- context [smc_mont_sprp64 w n ?a ?i ?o] =>
             let b := fresh "b" in
             destruct (mont_sprp64_defined w n a i o ltac:(lia)) as [b ->];
             destruct b; cbn [negb]; [ | eexists; reflexivity ]
         | |- context [if ?c then _ else _] =>
             destruct c; [ eexists; reflexivity | ]
         end.
  eexists; reflexivity.
Qed.

Lemma witness_loop_defined w ws n n_inv one :
  2 <= n < 2 ^ 64 -> exists b, witness_loop w ws n n_inv one = Some b.
Proof.
  intros Hn. induction ws as [ | a ws IH ]; cbn [witness_loop].
  - eexists; reflexivity.
  - destruct (mont_sprp64_defined w n a n_inv one Hn) as [b ->].
    destruct b; cbn [negb]; [ exact IH | eexists; reflexivity ].
Qed.

Lemma is_prime64_wc_defined w n :
  0 <= n < 2 ^ 64 -> exists b, smc_is_prime64_wc w n = Some b.
Proof.
  intros Hn. unfold smc_is_prime64_wc.
  destruct (n <? 2); [ eexists; reflexivity | ].
  destruct (n =? 2); [ eexists; reflexivity | ].
  destruct (Z.land n 1 =? 0); [ eexists; reflexivity | ].
  destruct (Z.ltb_spec n 9) as [ | H9 ]; [ eexists; reflexivity | ].
  destruct (n =? 3215031751); [ eexists; reflexivity | ].
  cbv zeta. apply witness_loop_defined. lia.
Qed.

(** ** Below 2^32 the two builds decide alike *)

Lemma mont_sprp64_builds_agree n a :
  3 <= n < 2 ^ 32 -> Z.odd n = true -> 0 <= a < 2 ^ 64 ->
  smc_mont_sprp64 Emulated n a (smc_mont_inv64 n) (smc_mont_one64 n)
  = smc_mont_sprp64 Int128 n a (smc_mont_inv64 n) (smc_mont_one64 n).
Proof.
  intros Hn Hodd Ha.
  destruct (odd_decomposition n ltac:(lia)) as (d & s & Hd & Hdodd & Hs & E).
  destruct (mont_sprp64_spec Emulated n a d s) as [He0 He1]; try assumption; try lia.
  { intros _. lia. }
  destruct (mont_sprp64_spec Int128 n a d s) as [Hi0 Hi1]; try assumption; try lia.
  { intros H. discriminate H. }
  destruct (Z.eq_dec (a mod n) 0) as [Hz | Hnz].
  - now rewrite He0, Hi0.
  - destruct (He1 Hnz) as [b1 [-> H1]]. destruct (Hi1 Hnz) as [b2 [-> H2]].
    f_equal. destruct b1, b2; try reflexivity.
    + symmetry. apply H2, H1. reflexivity.
    + apply H1, H2. reflexivity.
Qed.

Lemma is_prime64_builds_agree n :
  0 <= n < 2 ^ 32 -> smc_is_prime64 Emulated n = smc_is_prime64 Int128 n.
Proof.
  intros Hn. unfold smc_is_prime64.
  destruct (n <? 2); [ reflexivity | ].
  destruct (n =? 2); [ reflexivity | ].
  destruct (Z.land n 1 =? 0) eqn:Hev; [ reflexivity | ].
  destruct (Z.ltb_spec n 9) as [ | H9 ]; [ reflexivity | ].
  destruct (prefilter64 n); [ reflexivity | ].
  cbv zeta.
  rewrite !mont_sprp64_builds_agree by (try (now apply odd_of_land); lia).
  reflexivity.
Qed.

Lemma witness_loop_builds_agree ws n :
  3 <= n < 2 ^ 32 -> Z.odd n = true -> Forall (fun a => 0 <= a < 2 ^ 64) ws ->
  witness_loop Emulated ws n (smc_mont_inv64 n) (smc_mont_one64 n)
  = witness_loop Int128 ws n (smc_mont_inv64 n) (smc_mont_one64 n).
Proof.
  intros Hn Hodd Hws. induction Hws as [ | a ws Ha _ IH ]; cbn [witness_loop].
  - reflexivity.
  - rewrite mont_sprp64_builds_agree, IH by assumption. reflexivity.
Qed.

Lemma is_prime64_wc_builds_agree n :
  0 <= n < 2 ^ 32 -> smc_is_prime64_wc Emulated n = smc_is_prime64_wc Int128 n.
Proof.
  intros Hn. unfold smc_is_prime64_wc.
  destruct (n <? 2); [ reflexivity | ].
  destruct (n =? 2); [ reflexivity | ].
  destruct (Z.land n 1 =? 0) eqn:Hev; [ reflexivity | ].
  destruct (Z.ltb_spec n 9) as [ | H9 ]; [ reflexivity | ].
  destruct (n =? 3215031751); [ reflexivity | ].
  cbv zeta. apply witness_loop_builds_agree;
    [ lia | now apply odd_of_land | exact witnesses_are_words ].
Qed.

(** ** Below 331^2 trial division alone decides *)

Lemma small_factor_check :
  forallb (fun j => existsb (fun q => j mod q =? 0) (2 :: table_primes))
    (map Z.of_nat (seq 2 329)) = true.
Proof. vm_compute. reflexivity. Qed.

Lemma small_has_table_factor j :
  2 <= j <= 330 -> exists q, (q = 2 \/ In q table_primes) /\ (q | j).
Proof.
  intros Hj.
  pose proof small_factor_check as Hall.
  rewrite forallb_forall in Hall.
  assert (Hin : In j (map Z.of_nat (seq 2 329))).
  { apply in_map_iff. exists (Z.to_nat j). split; [ lia | apply in_seq; lia ]. }
  apply Hall in Hin. apply existsb_exists in Hin.
  destruct Hin as [q [Hq Hm]]. apply Z.eqb_eq in Hm.
  assert (Hq' : q = 2 \/ In q table_primes).
  { apply in_inv in Hq. destruct Hq as [<- | Hq]; [ now left | now right ]. }
  exists q. split; [ exact Hq' | ].
  apply Z.mod_divide; [ | exact Hm ].
  destruct Hq' as [-> | Hq']; [ lia | ]. apply table_primes_spec in Hq'. lia.
Qed.

Lemma unfactored_is_prime n :
  Z.odd n = true -> 9 <= n < 109561 ->
  (forall p, In p table_primes -> ~ (p | n)) -> Z.prime n.
Proof.
  intros Hodd Hn Hno. apply is_prime_b_sound. unfold is_prime_b.
  apply andb_true_iff. split; [ apply Z.ltb_lt; lia | ].
  apply negb_true_iff.
  destruct (has_divisor _ 2 n) eqn:Hd; [ exfalso | reflexivity ].
  apply has_divisor_true in Hd. destruct Hd as [j [Hj Hm]].
  assert (Hsq : Z.sqrt n < 331) by (apply Z.sqrt_lt_square; lia).
  assert (Hs1 : 1 <= Z.sqrt n).
  { change 1 with (Z.sqrt 1). apply Z.sqrt_le_mono. lia. }
  rewrite Z2Nat.id in Hj by lia.
  destruct (small_has_table_factor j ltac:(lia)) as [q [Hq Hqj]].
  assert (Hqn : (q | n)).
  { apply (Z.divide_trans q j n); [ exact Hqj | ].
    apply Z.mod_divide; [ lia | exact Hm ]. }
  destruct Hq as [-> | Hq].
  - destruct Hqn as [k Hk]. apply odd_mod2 in Hodd.
    rewrite Hk, Z.mod_mul in Hodd by lia. discriminate.
  - now apply (Hno q).
Qed.

Lemma small_odd_prime n : 2 < n < 9 -> Z.odd n = true -> Z.prime n.
Proof.
  intros Hn Hodd.
  assert (Hc : n = 3 \/ n = 5 \/ n = 7).
  { assert (n = 3 \/ n = 4 \/ n = 5 \/ n = 6 \/ n = 7 \/ n = 8) as Hc by lia.
    destruct Hc as [-> | [-> | [-> | [-> | [-> | ->]]]]];
      try discriminate; auto. }
  destruct Hc as [-> | [-> | ->]]; apply is_prime_b_sound; reflexivity.
Qed.

Lemma is_prime64_small w n :
  0 <= n < 109561 ->
  exists b, smc_is_prime64 w n = Some b /\ (b = true <-> Z.prime n).
Proof.
  intros Hn. unfold smc_is_prime64.
  destruct (Z.ltb_spec n 2) as [Hlt | Hge].
  { exists false. split; [ reflexivity | ]. split; [ discriminate | ].
    intros Hp. apply Z.prime_ge_2 in Hp. lia. }
  destruct (Z.eqb_spec n 2) as [-> | Hne].
  { exists true. split; [ reflexivity | ]. split; [ intros _; exact Z.prime_2 | reflexivity ]. }
  destruct (Z.land n 1 =? 0) eqn:Hev.
  { exists false. split; [ reflexivity | ]. split; [ discriminate | ].
    intros Hp. exfalso. revert Hp. apply even_not_prime; [ lia | exact Hev ]. }
  apply odd_of_land in Hev.
  destruct (Z.ltb_spec n 9) as [H9 | H9].
  { exists true. split; [ reflexivity | ]. split; [ intros _ | reflexivity ].
    apply small_odd_prime; [ lia | exact Hev ]. }
  unfold prefilter64. rewrite table_is_whole.
  destruct (Z.ltb_spec n 55730344633563600) as [_ | ]; [ | lia ].
  pose proof (trial_division64_table n ltac:(lia)) as T.
  destruct (trial_division64 SMC_PRIME_INV64 n) as [[ | ] | ].
  - exists true. split; [ reflexivity | ]. split; [ intros _ | reflexivity ].
    destruct T as [p [Hin ->]]. now apply table_primes_spec in Hin.
  - exists false. split; [ reflexivity | ]. split; [ discriminate | ].
    intros Hp. exfalso. revert Hp.
    destruct T as [p [Hin [Hdiv Hne']]]. apply table_primes_spec in Hin.
    apply (proper_divisor_not_prime p n); try assumption; lia.
  - destruct (Z.ltb_spec n 109561) as [_ | ]; [ | lia ].
    exists true. split; [ reflexivity | ]. split; [ intros _ | reflexivity ].
    now apply unfactored_is_prime.
Qed.

(** ** Prime navigation on 64-bit words *)

Lemma is_prime64_below_9 w n :
  2 <= n < 9 -> Z.odd n = true \/ n = 2 -> smc_is_prime64 w n = Some true.
Proof.
  intros Hn Hodd. unfold smc_is_prime64.
  destruct (Z.ltb_spec n 2) as [ | _ ]; [ lia | ].
  destruct (Z.eqb_spec n 2) as [ | Hne ]; [ reflexivity | ].
  destruct Hodd as [Hodd | ]; [ | lia ].
  rewrite land_1_even, <- Z.negb_odd, Hodd. cbn [negb].
  destruct (Z.ltb_spec n 9); [ reflexivity | lia ].
Qed.

Lemma is_prime64_even w n :
  2 < n -> Z.even n = true -> smc_is_prime64 w n = Some false.
Proof.
  intros Hn Hev. unfold smc_is_prime64.
  destruct (Z.ltb_spec n 2) as [ | _ ]; [ lia | ].
  destruct (Z.eqb_spec n 2) as [ | _ ]; [ lia | ].
  rewrite land_1_even, Hev. reflexivity.
Qed.

Lemma is_prime64_below_2 w n : n < 2 -> smc_is_prime64 w n = Some false.
Proof.
  intros Hn. unfold smc_is_prime64.
  destruct (Z.ltb_spec n 2); [ reflexivity | lia ].
Qed.

Lemma is_prime64_accepts_odd w n :
  smc_is_prime64 w n = Some true -> n = 2 \/ (3 <= n /\ Z.odd n = true).
Proof.
  unfold smc_is_prime64.
  destruct (Z.ltb_spec n 2); [ discriminate | ].
  destruct (Z.eqb_spec n 2); [ now left | ].
  rewrite land_1_even, <- Z.negb_odd.
  destruct (Z.odd n); cbn [negb]; [ | discriminate ].
  intros _. right. split; [ lia | reflexivity ].
Qed.

Lemma odd_step n m : Z.odd n = true -> Z.odd m = true -> n < m -> n + 2 <= m.
Proof.
  intros Hn Hm Hlt. apply odd_mod2 in Hn. apply odd_mod2 in Hm.
  pose proof (Z.div_mod n 2 ltac:(lia)). pose proof (Z.div_mod m 2 ltac:(lia)). lia.
Qed.

Lemma odd_add_2 n : Z.odd (n + 2) = Z.odd n.
Proof. rewrite Z.odd_add. change (Z.odd 2) with false. now rewrite xorb_false_r. Qed.

Lemma odd_sub_2 n : Z.odd (n - 2) = Z.odd n.
Proof. rewrite Z.odd_sub. change (Z.odd 2) with false. now rewrite xorb_false_r. Qed.

Lemma prev_prime64_loop_spec w fuel : forall n,
  3 <= n < 2 ^ 64 -> Z.odd n = true -> (Z.to_nat ((n - 3) / 2) <= fuel)%nat ->
  exists r, prev_prime64_loop w fuel n = Some r /\
    3 <= r <= n /\ smc_is_prime64 w r = Some true /\
    forall m, r < m <= n -> Z.odd m = true -> smc_is_prime64 w m = Some false.
Proof.
  induction fuel as [ | k IH ]; intros n Hn Hodd Hfuel.
  - assert (Hn3 : n < 5).
    { destruct (Z_lt_le_dec n 5); [ assumption | exfalso ].
      assert (1 <= (n - 3) / 2) by (apply Z.div_le_lower_bound; lia). lia. }
    cbn [prev_prime64_loop].
    rewrite is_prime64_below_9 by (try lia; now left).
    exists n. split; [ reflexivity | ]. split; [ lia | ].
    split; [ apply is_prime64_below_9; try lia; now left | ]. intros m Hm. lia.
  - cbn [prev_prime64_loop].
    destruct (is_prime64_defined w n ltac:(lia)) as [b Hb]. rewrite Hb.
    destruct b.
    + exists n. split; [ reflexivity | ]. split; [ lia | ].
      split; [ exact Hb | ]. intros m Hm. lia.
    + assert (H9 : 9 <= n).
      { destruct (Z_lt_le_dec n 9); [ exfalso | assumption ].
        rewrite is_prime64_below_9 in Hb by (try lia; now left). discriminate. }
      destruct (Z.ltb_spec n 3) as [ | _ ]; [ lia | ].
      rewrite u64_small by lia.
      destruct (IH (n - 2)) as (r & Hr & Hrange & Hacc & Hrej).
      * lia.
      * now rewrite odd_sub_2.
      * replace (n - 2 - 3) with ((n - 3) + (-1) * 2) by ring.
        rewrite Z.div_add by lia. lia.
      * exists r. split; [ exact Hr | ]. split; [ lia | ].
        split; [ exact Hacc | ].
        intros m Hm Hmo.
        destruct (Z.eq_dec m n) as [-> | Hne]; [ exact Hb | ].
        apply Hrej; [ | exact Hmo ].
        assert (m + 2 <= n) by (apply odd_step; try assumption; lia). lia.
Qed.

Lemma prev_prime64_spec w fuel n :
  0 <= n < 2 ^ 64 -> (Z.to_nat (n / 2) <= fuel)%nat ->
  (n < 2 -> smc_prev_prime64 w fuel n = Some 0) /\
  (2 <= n ->
   exists r, smc_prev_prime64 w fuel n = Some r /\
     2 <= r <= n /\ smc_is_prime64 w r = Some true /\
     forall m, r < m <= n -> smc_is_prime64 w m = Some false).
Proof.
  intros Hn Hfuel. unfold smc_prev_prime64. split.
  - intros Hlt. destruct (Z.ltb_spec n 2); [ reflexivity | lia ].
  - intros Hge.
    destruct (Z.ltb_spec n 2) as [ | _ ]; [ lia | ].
    destruct (Z.eqb_spec n 2) as [-> | Hne].
    { exists 2. split; [ reflexivity | ]. split; [ lia | ].
      split; [ apply is_prime64_below_9; [ lia | now right ] | ]. intros m Hm. lia. }
    rewrite land_1_even.
    assert (Hhalf : forall x, 3 <= x <= n -> (Z.to_nat ((x - 3) / 2) <= fuel)%nat).
    { intros x Hx.
      assert ((x - 3) / 2 <= n / 2) by (apply Z.div_le_mono; lia). lia. }
    destruct (Z.even n) eqn:Hev.
    + assert (Hne3 : n <> 3) by (intros ->; discriminate Hev).
      rewrite u64_small by lia.
      assert (Ho : Z.odd (n - 1) = true).
      { rewrite Z.odd_sub, <- Z.negb_even, Hev. reflexivity. }
      destruct (prev_prime64_loop_spec w fuel (n - 1)) as (r & Hr & Hrange & Hacc & Hrej);
        [ lia | exact Ho | apply Hhalf; lia | ].
      exists r. split; [ exact Hr | ]. split; [ lia | ].
      split; [ exact Hacc | ].
      intros m Hm. destruct (Z.odd m) eqn:Hmo.
      * apply Hrej; [ | exact Hmo ].
        destruct (Z.eq_dec m n) as [-> | ]; [ | lia ].
        rewrite <- Z.negb_even, Hev in Hmo. discriminate.
      * apply is_prime64_even; [ lia | ]. rewrite <- Z.negb_odd, Hmo. reflexivity.
    + assert (Ho : Z.odd n = true) by (rewrite <- Z.negb_even, Hev; reflexivity).
      destruct (prev_prime64_loop_spec w fuel n) as (r & Hr & Hrange & Hacc & Hrej);
        [ lia | exact Ho | apply Hhalf; lia | ].
      exists r. split; [ exact Hr | ]. split; [ lia | ].
      split; [ exact Hacc | ].
      intros m Hm. destruct (Z.odd m) eqn:Hmo.
      * apply Hrej; [ lia | exact Hmo ].
      * apply is_prime64_even; [ lia | ]. rewrite <- Z.negb_odd, Hmo. reflexivity.
Qed.

Lemma next_prime64_loop_spec w fuel : forall n,
  3 <= n < 2 ^ 64 -> Z.odd n = true ->
  (Z.to_nat ((2 ^ 64 - n) / 2 + 1) <= fuel)%nat ->
  exists r, next_prime64_loop w fuel n = Some r /\
    ((r = 0 /\
      forall m, n <= m < 2 ^ 64 -> Z.odd m = true -> smc_is_prime64 w m = Some false)
     \/
     (n <= r < 2 ^ 64 /\ smc_is_prime64 w r = Some true /\
      forall m, n <= m < r -> Z.odd m = true -> smc_is_prime64 w m = Some false)).
Proof.
  induction fuel as [ | k IH ]; intros n Hn Hodd Hfuel.
  - exfalso. assert (0 <= (2 ^ 64 - n) / 2) by (apply Z.div_pos; lia). lia.
  - cbn [next_prime64_loop].
    destruct (is_prime64_defined w n ltac:(lia)) as [b Hb]. rewrite Hb.
    destruct b.
    + exists n. split; [ reflexivity | ]. right.
      split; [ lia | ]. split; [ exact Hb | ]. intros m Hm. lia.
    + destruct (Z_lt_le_dec (n + 2) (2 ^ 64)) as [Hin | Hout].
      * rewrite u64_small by lia.
        destruct (Z.ltb_spec (n + 2) 2) as [ | _ ]; [ lia | ].
        destruct (IH (n + 2)) as (r & Hr & Hcases).
        -- lia.
        -- now rewrite odd_add_2.
        -- replace (2 ^ 64 - (n + 2)) with ((2 ^ 64 - n) + (-1) * 2) by ring.
           rewrite Z.div_add by lia.
           assert (0 <= (2 ^ 64 - n) / 2) by (apply Z.div_pos; lia). lia.
        -- exists r. split; [ exact Hr | ].
           assert (Hstep : forall m, n <= m -> Z.odd m = true -> m <> n -> n + 2 <= m).
           { intros m Hm Hmo Hne. apply odd_step; try assumption; lia. }
           destruct Hcases as [[-> Hrej] | (Hrange & Hacc & Hrej)]; [ left | right ].
           ++ split; [ reflexivity | ]. intros m Hm Hmo.
              destruct (Z.eq_dec m n) as [-> | Hne]; [ exact Hb | ].
              apply Hrej; [ | exact Hmo ]. specialize (Hstep m ltac:(lia) Hmo Hne). lia.
           ++ split; [ lia | ]. split; [ exact Hacc | ]. intros m Hm Hmo.
              destruct (Z.eq_dec m n) as [-> | Hne]; [ exact Hb | ].
              apply Hrej; [ | exact Hmo ]. specialize (Hstep m ltac:(lia) Hmo Hne). lia.
      * assert (Hn' : n = 2 ^ 64 - 1).
        { destruct (Z.eq_dec n (2 ^ 64 - 1)); [ assumption | exfalso ].
          assert (n = 2 ^ 64 - 2) by lia. subst n. discriminate Hodd. }
        subst n. exists 0. split; [ reflexivity | ]. left.
        split; [ reflexivity | ]. intros m Hm _.
        assert (m = 2 ^ 64 - 1) by lia. subst m. exact Hb.
Qed.

Lemma next_prime64_spec w fuel n :
  0 <= n < 2 ^ 64 -> (Z.to_nat ((2 ^ 64 - n) / 2 + 1) <= fuel)%nat ->
  exists r, smc_next_prime64 w fuel n = Some r /\
    ((r = 0 /\ forall m, n <= m < 2 ^ 64 -> smc_is_prime64 w m = Some false)
     \/
     (n <= r < 2 ^ 64 /\ smc_is_prime64 w r = Some true /\
      forall m, n <= m < r -> smc_is_prime64 w m = Some false)).
Proof.
  intros Hn Hfuel. unfold smc_next_prime64.
  destruct (Z.leb_spec n 2) as [Hle | Hgt].
  { exists 2. split; [ reflexivity | ]. right. split; [ lia | ].
    split; [ apply is_prime64_below_9; [ lia | now right ] | ].
    intros m Hm. apply is_prime64_below_2. lia. }
  destruct (Z.eqb_spec n 3) as [-> | Hne3].
  { exists 3. split; [ reflexivity | ]. right. split; [ lia | ].
    split; [ apply is_prime64_below_9; [ lia | now left ] | ].
    intros m Hm. lia. }
  rewrite land_1_even.
  assert (Hall : forall n0 r, n <= n0 <= n + 1 -> Z.odd n0 = true ->
            (n0 = n + 1 -> Z.even n = true) ->
            ((r = 0 /\ forall m, n0 <= m < 2 ^ 64 -> Z.odd m = true ->
                       smc_is_prime64 w m = Some false)
             \/ (n0 <= r < 2 ^ 64 /\ smc_is_prime64 w r = Some true /\
                 forall m, n0 <= m < r -> Z.odd m = true ->
                           smc_is_prime64 w m = Some false)) ->
            (r = 0 /\ forall m, n <= m < 2 ^ 64 -> smc_is_prime64 w m = Some false)
            \/ (n <= r < 2 ^ 64 /\ smc_is_prime64 w r = Some true /\
                forall m, n <= m < r -> smc_is_prime64 w m = Some false)).
  { intros n0 r Hn0 Ho0 Hev0 Hcases.
    assert (Hany : forall m, n <= m ->
              (n0 <= m -> Z.odd m = true -> smc_is_prime64 w m = Some false) ->
              smc_is_prime64 w m = Some false).
    { intros m Hm Hrej. destruct (Z.odd m) eqn:Hmo.
      - apply Hrej; [ | reflexivity ].
        destruct (Z.eq_dec m n) as [-> | ]; [ | lia ].
        destruct (Z.eq_dec n0 n) as [ | Hd ]; [ lia | ].
        assert (Z.even n = true) by (apply Hev0; lia).
        rewrite <- Z.negb_even, H in Hmo. discriminate.
      - apply is_prime64_even; [ lia | ]. rewrite <- Z.negb_odd, Hmo. reflexivity. }
    destruct Hcases as [[-> Hrej] | (Hrange & Hacc & Hrej)]; [ left | right ].
    - split; [ reflexivity | ]. intros m Hm. apply Hany; [ lia | ].
      intros. apply Hrej; [ lia | assumption ].
    - split; [ lia | ]. split; [ exact Hacc | ]. intros m Hm. apply Hany; [ lia | ].
      intros. apply Hrej; [ lia | assumption ]. }
  destruct (Z.even n) eqn:Hev.
  - assert (Hlt : n + 1 < 2 ^ 64).
    { destruct (Z.eq_dec n (2 ^ 64 - 1)) as [-> | ]; [ discriminate Hev | lia ]. }
    rewrite u64_small by lia.
    assert (Ho : Z.odd (n + 1) = true).
    { rewrite Z.odd_add, <- Z.negb_even, Hev. reflexivity. }
    destruct (next_prime64_loop_spec w fuel (n + 1)) as (r & Hr & Hcases);
      [ lia | exact Ho | | ].
    { assert ((2 ^ 64 - (n + 1)) / 2 <= (2 ^ 64 - n) / 2) by (apply Z.div_le_mono; lia).
      lia. }
    exists r. split; [ exact Hr | ].
    apply (Hall (n + 1) r); try assumption; try lia.
  - assert (Ho : Z.odd n = true) by (rewrite <- Z.negb_even, Hev; reflexivity).
    destruct (next_prime64_loop_spec w fuel n) as (r & Hr & Hcases);
      [ lia | exact Ho | exact Hfuel | ].
    exists r. split; [ exact Hr | ].
    apply (Hall n r); try assumption; try lia.
Qed.

(** On a prime, navigation stays put: on either build while it is exact. *)
Lemma navigation64_fixes_primes w fuel p :
  Z.prime p -> p < 2 ^ 64 -> exact_build w p ->
  smc_next_prime64 w fuel p = Some p /\ smc_prev_prime64 w fuel p = Some p.
Proof.
  intros Hp Hlt Hw. pose proof (Z.prime_ge_2 p Hp) as H2.
  pose proof (is_prime64_prime w p Hp Hlt Hw) as Hacc.
  assert (Hodd : p <> 2 -> (Z.land p 1 =? 0) = false).
  { intros Hne. destruct (is_prime64_accepts_odd w p Hacc) as [ | [_ Ho]]; [ lia | ].
    rewrite land_1_even, <- Z.negb_odd, Ho. reflexivity. }
  unfold smc_next_prime64, smc_prev_prime64. split.
  - destruct (Z.leb_spec p 2) as [ | Hgt ]; [ f_equal; lia | ].
    destruct (Z.eqb_spec p 3) as [-> | Hne3 ]; [ reflexivity | ].
    rewrite Hodd by lia.
    destruct fuel; cbn [next_prime64_loop]; rewrite Hacc; reflexivity.
  - destruct (Z.ltb_spec p 2) as [ | _ ]; [ lia | ].
    destruct (Z.eqb_spec p 2) as [-> | Hne2 ]; [ reflexivity | ].
    rewrite Hodd by lia.
    destruct fuel; cbn [prev_prime64_loop]; rewrite Hacc; reflexivity.
Qed.


(** ** The 32-bit decision function and navigation *)

Lemma sprp32_defined n a :
  3 <= n < 2 ^ 32 -> Z.odd n = true -> 0 <= a < 2 ^ 32 ->
  exists b, smc_sprp32 n a = Some b.
Proof.
  intros Hn Hodd Ha.
  destruct (odd_decomposition n ltac:(lia)) as (d & s & Hd & Hdodd & Hs & E).
  destruct (sprp32_spec n a d s Hn Hodd Ha Hd Hdodd Hs E) as [H0 H1].
  destruct (Z.eq_dec (a mod n) 0) as [Hz | Hnz].
  - exists true. now apply H0.
  - destruct (H1 Hnz) as [b [Hb _]]. now exists b.
Qed.

Lemma sprp32_prime n a :
  Z.prime n -> 3 <= n < 2 ^ 32 -> Z.odd n = true -> 0 <= a < 2 ^ 32 ->
  smc_sprp32 n a = Some true.
Proof.
  intros Hp Hn Hodd Ha.
  destruct (odd_decomposition n ltac:(lia)) as (d & s & Hd & Hdodd & Hs & E).
  destruct (sprp32_spec n a d s Hn Hodd Ha Hd Hdodd Hs E) as [H0 H1].
  destruct (Z.eq_dec (a mod n) 0) as [Hz | Hnz]; [ now apply H0 | ].
  destruct (H1 Hnz) as [b [Hb Hiff]]. rewrite Hb. f_equal.
  apply Hiff. apply prime_strong_probable; try assumption; lia.
Qed.

Lemma is_prime32_defined n :
  0 <= n < 2 ^ 32 -> exists b, smc_is_prime32 n = Some b.
Proof.
  intros Hn. unfold smc_is_prime32.
  destruct (n <? 2); [ eexists; reflexivity | ].
  destruct (n =? 2); [ eexists; reflexivity | ].
  destruct (Z.land n 1 =? 0) eqn:Hev; [ eexists; reflexivity | ].
  apply odd_of_land in Hev.
  destruct (Z.ltb_spec n 9) as [ | H9 ]; [ eexists; reflexivity | ].
  destruct (n mod 3 =? 0); [ eexists; reflexivity | ].
  destruct (n mod 5 =? 0); [ eexists; reflexivity | ].
  destruct (n mod 7 =? 0); [ eexists; reflexivity | ].
  destruct (n =? 3215031751); [ eexists; reflexivity | ].
  destruct (sprp32_defined n 2 ltac:(lia) Hev ltac:(lia)) as [b2 ->].
  destruct b2; [ | eexists; reflexivity ].
  destruct (sprp32_defined n 7 ltac:(lia) Hev ltac:(lia)) as [b7 ->].
  destruct b7; [ | eexists; reflexivity ].
  apply sprp32_defined; [ lia | exact Hev | lia ].
Qed.

Lemma is_prime32_prime n :
  Z.prime n -> n < 2 ^ 32 -> smc_is_prime32 n = Some true.
Proof.
  intros Hp Hn. pose proof (Z.prime_ge_2 n Hp) as H2.
  unfold smc_is_prime32.
  destruct (Z.ltb_spec n 2) as [ | _ ]; [ lia | ].
  destruct (Z.eqb_spec n 2) as [ | Hne2 ]; [ reflexivity | ].
  destruct (Z.land n 1 =? 0) eqn:Hev.
  { exfalso. revert Hp. apply even_not_prime; [ lia | exact Hev ]. }
  apply odd_of_land in Hev.
  destruct (Z.ltb_spec n 9) as [ | H9 ]; [ reflexivity | ].
  repeat match goal with
         | |- context [?x mod ?p =? 0] =>
             destruct (Z.eqb_spec (x mod p) 0) as [E | _];
             [ exfalso; revert Hp; apply (multiple_not_prime p); [ lia | exact E ] | ]
         end.
  destruct (Z.eqb_spec n 3215031751) as [-> | _ ].
  { exfalso. now apply pseudoprime_3215031751. }
  rewrite !(sprp32_prime n _ Hp) by (try assumption; lia).
  reflexivity.
Qed.

Lemma is_prime32_below_9 n :
  2 <= n < 9 -> Z.odd n = true \/ n = 2 -> smc_is_prime32 n = Some true.
Proof.
  intros Hn Hodd. unfold smc_is_prime32.
  destruct (Z.ltb_spec n 2) as [ | _ ]; [ lia | ].
  destruct (Z.eqb_spec n 2) as [ | Hne ]; [ reflexivity | ].
  destruct Hodd as [Hodd | ]; [ | lia ].
  rewrite land_1_even, <- Z.negb_odd, Hodd. cbn [negb].
  destruct (Z.ltb_spec n 9); [ reflexivity | lia ].
Qed.

Lemma is_prime32_even n :
  2 < n -> Z.even n = true -> smc_is_prime32 n = Some false.
Proof.
  intros Hn Hev. unfold smc_is_prime32.
  destruct (Z.ltb_spec n 2) as [ | _ ]; [ lia | ].
  destruct (Z.eqb_spec n 2) as [ | _ ]; [ lia | ].
  rewrite land_1_even, Hev. reflexivity.
Qed.

Lemma is_prime32_below_2 n : n < 2 -> smc_is_prime32 n = Some false.
Proof.
  intros Hn. unfold smc_is_prime32.
  destruct (Z.ltb_spec n 2); [ reflexivity | lia ].
Qed.

Lemma is_prime32_accepts_odd n :
  smc_is_prime32 n = Some true -> n = 2 \/ (3 <= n /\ Z.odd n = true).
Proof.
  unfold smc_is_prime32.
  destruct (Z.ltb_spec n 2); [ discriminate | ].
  destruct (Z.eqb_spec n 2); [ now left | ].
  rewrite land_1_even, <- Z.negb_odd.
  destruct (Z.odd n); cbn [negb]; [ | discriminate ].
  intros _. right. split; [ lia | reflexivity ].
Qed.

Lemma navigation32_fixes_primes fuel p :
  Z.prime p -> p < 2 ^ 32 ->
  smc_next_prime32 fuel p = Some p /\ smc_prev_prime32 fuel p = Some p.
Proof.
  intros Hp Hlt. pose proof (Z.prime_ge_2 p Hp) as H2.
  pose proof (is_prime32_prime p Hp Hlt) as Hacc.
  assert (Hodd : p <> 2 -> (Z.land p 1 =? 0) = false).
  { intros Hne. destruct (is_prime32_accepts_odd p Hacc) as [ | [_ Ho]]; [ lia | ].
    rewrite land_1_even, <- Z.negb_odd, Ho. reflexivity. }
  unfold smc_next_prime32, smc_prev_prime32. split.
  - destruct (Z.leb_spec p 2) as [ | Hgt ]; [ f_equal; lia | ].
    destruct (Z.eqb_spec p 3) as [-> | Hne3 ]; [ reflexivity | ].
    rewrite Hodd by lia.
    destruct fuel; cbn [next_prime32_loop]; rewrite Hacc; reflexivity.
  - destruct (Z.ltb_spec p 2) as [ | _ ]; [ lia | ].
    destruct (Z.eqb_spec p 2) as [-> | Hne2 ]; [ reflexivity | ].
    rewrite Hodd by lia.
    destruct fuel; cbn [prev_prime32_loop]; rewrite Hacc; reflexivity.
Qed.

Lemma prev_prime32_loop_spec fuel : forall n,
  3 <= n < 2 ^ 32 -> Z.odd n = true -> (Z.to_nat ((n - 3) / 2) <= fuel)%nat ->
  exists r, prev_prime32_loop fuel n = Some r /\
    3 <= r <= n /\ smc_is_prime32 r = Some true /\
    forall m, r < m <= n -> Z.odd m = true -> smc_is_prime32 m = Some false.
Proof.
  induction fuel as [ | k IH ]; intros n Hn Hodd Hfuel.
  - assert (Hn3 : n < 5).
    { destruct (Z_lt_le_dec n 5); [ assumption | exfalso ].
      assert (1 <= (n - 3) / 2) by (apply Z.div_le_lower_bound; lia). lia. }
    cbn [prev_prime32_loop].
    rewrite is_prime32_below_9 by (try lia; now left).
    exists n. split; [ reflexivity | ]. split; [ lia | ].
    split; [ apply is_prime32_below_9; try lia; now left | ]. intros m Hm. lia.
  - cbn [prev_prime32_loop].
    destruct (is_prime32_defined n ltac:(lia)) as [b Hb]. rewrite Hb.
    destruct b.
    + exists n. split; [ reflexivity | ]. split; [ lia | ].
      split; [ exact Hb | ]. intros m Hm. lia.
    + assert (H9 : 9 <= n).
      { destruct (Z_lt_le_dec n 9); [ exfalso | assumption ].
        rewrite is_prime32_below_9 in Hb by (try lia; now left). discriminate. }
      destruct (Z.ltb_spec n 3) as [ | _ ]; [ lia | ].
      rewrite u32_small by lia.
      destruct (IH (n - 2)) as (r & Hr & Hrange & Hacc & Hrej).
      * lia.
      * now rewrite odd_sub_2.
      * replace (n - 2 - 3) with ((n - 3) + (-1) * 2) by ring.
        rewrite Z.div_add by lia. lia.
      * exists r. split; [ exact Hr | ]. split; [ lia | ].
        split; [ exact Hacc | ].
        intros m Hm Hmo.
        destruct (Z.eq_dec m n) as [-> | Hne]; [ exact Hb | ].
        apply Hrej; [ | exact Hmo ].
        assert (m + 2 <= n) by (apply odd_step; try assumption; lia). lia.
Qed.

Lemma prev_prime32_spec fuel n :
  0 <= n < 2 ^ 32 -> (Z.to_nat (n / 2) <= fuel)%nat ->
  (n < 2 -> smc_prev_prime32 fuel n = Some 0) /\
  (2 <= n ->
   exists r, smc_prev_prime32 fuel n = Some r /\
     2 <= r <= n /\ smc_is_prime32 r = Some true /\
     forall m, r < m <= n -> smc_is_prime32 m = Some false).
Proof.
  intros Hn Hfuel. unfold smc_prev_prime32. split.
  - intros Hlt. destruct (Z.ltb_spec n 2); [ reflexivity | lia ].
  - intros Hge.
    destruct (Z.ltb_spec n 2) as [ | _ ]; [ lia | ].
    destruct (Z.eqb_spec n 2) as [-> | Hne].
    { exists 2. split; [ reflexivity | ]. split; [ lia | ].
      split; [ apply is_prime32_below_9; [ lia | now right ] | ]. intros m Hm. lia. }
    rewrite land_1_even.
    assert (Hhalf : forall x, 3 <= x <= n -> (Z.to_nat ((x - 3) / 2) <= fuel)%nat).
    { intros x Hx.
      assert ((x - 3) / 2 <= n / 2) by (apply Z.div_le_mono; lia). lia. }
    destruct (Z.even n) eqn:Hev.
    + assert (Hne3 : n <> 3) by (intros ->; discriminate Hev).
      rewrite u32_small by lia.
      assert (Ho : Z.odd (n - 1) = true).
      { rewrite Z.odd_sub, <- Z.negb_even, Hev. reflexivity. }
      destruct (prev_prime32_loop_spec fuel (n - 1)) as (r & Hr & Hrange & Hacc & Hrej);
        [ lia | exact Ho | apply Hhalf; lia | ].
      exists r. split; [ exact Hr | ]. split; [ lia | ].
      split; [ exact Hacc | ].
      intros m Hm. destruct (Z.odd m) eqn:Hmo.
      * apply Hrej; [ | exact Hmo ].
        destruct (Z.eq_dec m n) as [-> | ]; [ | lia ].
        rewrite <- Z.negb_even, Hev in Hmo. discriminate.
      * apply is_prime32_even; [ lia | ]. rewrite <- Z.negb_odd, Hmo. reflexivity.
    + assert (Ho : Z.odd n = true) by (rewrite <- Z.negb_even, Hev; reflexivity).
      destruct (prev_prime32_loop_spec fuel n) as (r & Hr & Hrange & Hacc & Hrej);
        [ lia | exact Ho | apply Hhalf; lia | ].
      exists r. split; [ exact Hr | ]. split; [ lia | ].
      split; [ exact Hacc | ].
      intros m Hm. destruct (Z.odd m) eqn:Hmo.
      * apply Hrej; [ lia | exact Hmo ].
      * apply is_prime32_even; [ lia | ]. rewrite <- Z.negb_odd, Hmo. reflexivity.
Qed.

Lemma next_prime32_loop_spec fuel : forall n,
  3 <= n < 2 ^ 32 -> Z.odd n = true ->
  (Z.to_nat ((2 ^ 32 - n) / 2 + 1) <= fuel)%nat ->
  exists r, next_prime32_loop fuel n = Some r /\
    ((r = 0 /\
      forall m, n <= m < 2 ^ 32 -> Z.odd m = true -> smc_is_prime32 m = Some false)
     \/
     (n <= r < 2 ^ 32 /\ smc_is_prime32 r = Some true /\
      forall m, n <= m < r -> Z.odd m = true -> smc_is_prime32 m = Some false)).
Proof.
  induction fuel as [ | k IH ]; intros n Hn Hodd Hfuel.
  - exfalso. assert (0 <= (2 ^ 32 - n) / 2) by (apply Z.div_pos; lia). lia.
  - cbn [next_prime32_loop].
    destruct (is_prime32_defined n ltac:(lia)) as [b Hb]. rewrite Hb.
    destruct b.
    + exists n. split; [ reflexivity | ]. right.
      split; [ lia | ]. split; [ exact Hb | ]. intros m Hm. lia.
    + destruct (Z_lt_le_dec (n + 2) (2 ^ 32)) as [Hin | Hout].
      * rewrite u32_small by lia.
        destruct (Z.ltb_spec (n + 2) 2) as [ | _ ]; [ lia | ].
        destruct (IH (n + 2)) as (r & Hr & Hcases).
        -- lia.
        -- now rewrite odd_add_2.
        -- replace (2 ^ 32 - (n + 2)) with ((2 ^ 32 - n) + (-1) * 2) by ring.
           rewrite Z.div_add by lia.
           assert (0 <= (2 ^ 32 - n) / 2) by (apply Z.div_pos; lia). lia.
        -- exists r. split; [ exact Hr | ].
           assert (Hstep : forall m, n <= m -> Z.odd m = true -> m <> n -> n + 2 <= m).
           { intros m Hm Hmo Hne. apply odd_step; try assumption; lia. }
           destruct Hcases as [[-> Hrej] | (Hrange & Hacc & Hrej)]; [ left | right ].
           ++ split; [ reflexivity | ]. intros m Hm Hmo.
              destruct (Z.eq_dec m n) as [-> | Hne]; [ exact Hb | ].
              apply Hrej; [ | exact Hmo ]. specialize (Hstep m ltac:(lia) Hmo Hne). lia.
           ++ split; [ lia | ]. split; [ exact Hacc | ]. intros m Hm Hmo.
              destruct (Z.eq_dec m n) as [-> | Hne]; [ exact Hb | ].
              apply Hrej; [ | exact Hmo ]. specialize (Hstep m ltac:(lia) Hmo Hne). lia.
      * assert (Hn' : n = 2 ^ 32 - 1).
        { destruct (Z.eq_dec n (2 ^ 32 - 1)); [ assumption | exfalso ].
          assert (n = 2 ^ 32 - 2) by lia. subst n. discriminate Hodd. }
        subst n. exists 0. split; [ reflexivity | ]. left.
        split; [ reflexivity | ]. intros m Hm _.
        assert (m = 2 ^ 32 - 1) by lia. subst m. exact Hb.
Qed.

Lemma next_prime32_spec fuel n :
  0 <= n < 2 ^ 32 -> (Z.to_nat ((2 ^ 32 - n) / 2 + 1) <= fuel)%nat ->
  exists r, smc_next_prime32 fuel n = Some r /\
    ((r = 0 /\ forall m, n <= m < 2 ^ 32 -> smc_is_prime32 m = Some false)
     \/
     (n <= r < 2 ^ 32 /\ smc_is_prime32 r = Some true /\
      forall m, n <= m < r -> smc_is_prime32 m = Some false)).
Proof.
  intros Hn Hfuel. unfold smc_next_prime32.
  destruct (Z.leb_spec n 2) as [Hle | Hgt].
  { exists 2. split; [ reflexivity | ]. right. split; [ lia | ].
    split; [ apply is_prime32_below_9; [ lia | now right ] | ].
    intros m Hm. apply is_prime32_below_2. lia. }
  destruct (Z.eqb_spec n 3) as [-> | Hne3].
  { exists 3. split; [ reflexivity | ]. right. split; [ lia | ].
    split; [ apply is_prime32_below_9; [ lia | now left ] | ].
    intros m Hm. lia. }
  rewrite land_1_even.
  assert (Hall : forall n0 r, n <= n0 <= n + 1 -> Z.odd n0 = true ->
            (n0 = n + 1 -> Z.even n = true) ->
            ((r = 0 /\ forall m, n0 <= m < 2 ^ 32 -> Z.odd m = true ->
                       smc_is_prime32 m = Some false)
             \/ (n0 <= r < 2 ^ 32 /\ smc_is_prime32 r = Some true /\
                 forall m, n0 <= m < r -> Z.odd m = true ->
                           smc_is_prime32 m = Some false)) ->
            (r = 0 /\ forall m, n <= m < 2 ^ 32 -> smc_is_prime32 m = Some false)
            \/ (n <= r < 2 ^ 32 /\ smc_is_prime32 r = Some true /\
                forall m, n <= m < r -> smc_is_prime32 m = Some false)).
  { intros n0 r Hn0 Ho0 Hev0 Hcases.
    assert (Hany : forall m, n <= m ->
              (n0 <= m -> Z.odd m = true -> smc_is_prime32 m = Some false) ->
              smc_is_prime32 m = Some false).
    { intros m Hm Hrej. destruct (Z.odd m) eqn:Hmo.
      - apply Hrej; [ | reflexivity ].
        destruct (Z.eq_dec m n) as [-> | ]; [ | lia ].
        destruct (Z.eq_dec n0 n) as [ | Hd ]; [ lia | ].
        assert (Z.even n = true) by (apply Hev0; lia).
        rewrite <- Z.negb_even, H in Hmo. discriminate.
      - apply is_prime32_even; [ lia | ]. rewrite <- Z.negb_odd, Hmo. reflexivity. }
    destruct Hcases as [[-> Hrej] | (Hrange & Hacc & Hrej)]; [ left | right ].
    - split; [ reflexivity | ]. intros m Hm. apply Hany; [ lia | ].
      intros. apply Hrej; [ lia | assumption ].
    - split; [ lia | ]. split; [ exact Hacc | ]. intros m Hm. apply Hany; [ lia | ].
      intros. apply Hrej; [ lia | assumption ]. }
  destruct (Z.even n) eqn:Hev.
  - assert (Hlt : n + 1 < 2 ^ 32).
    { destruct (Z.eq_dec n (2 ^ 32 - 1)) as [-> | ]; [ discriminate Hev | lia ]. }
    rewrite u32_small by lia.
    assert (Ho : Z.odd (n + 1) = true).
    { rewrite Z.odd_add, <- Z.negb_even, Hev. reflexivity. }
    destruct (next_prime32_loop_spec fuel (n + 1)) as (r & Hr & Hcases);
      [ lia | exact Ho | | ].
    { assert ((2 ^ 32 - (n + 1)) / 2 <= (2 ^ 32 - n) / 2) by (apply Z.div_le_mono; lia).
      lia. }
    exists r. split; [ exact Hr | ].
    apply (Hall (n + 1) r); try assumption; try lia.
  - assert (Ho : Z.odd n = true) by (rewrite <- Z.negb_even, Hev; reflexivity).
    destruct (next_prime32_loop_spec fuel n) as (r & Hr & Hcases);
      [ lia | exact Ho | exact Hfuel | ].
    exists r. split; [ exact Hr | ].
    apply (Hall n r); try assumption; try lia.
Qed.


(** ** The Montgomery engine, operation by operation *)

Lemma int128_is_exact n : exact_build Int128 n.
Proof. intros H. discriminate H. Qed.

Lemma prime_104729 : Z.prime 104729.
Proof. apply is_prime_b_sound. vm_compute. reflexivity. Qed.

(** [smc_to_mont64 w x n] is [x * 2^64 mod n]: for every nonzero modulus on
    an [__int128] build, and for moduli up to 2^63 with the doubling loop of
    the emulated build. *)
Theorem smc_to_mont64_correct w x n :
  0 <= x < 2 ^ 64 -> 0 < n < 2 ^ 64 -> (w = Emulated -> n <= 2 ^ 63) ->
  smc_to_mont64 w x n = (x * 2 ^ 64) mod n.
Proof. apply to_mont64_build. Qed.

Lemma smc_to_mont64_correct_witness :
  (0 <= 5 < 2 ^ 64) /\ (0 < 1000000007 < 2 ^ 64) /\
  smc_to_mont64 Emulated 5 1000000007 = (5 * 2 ^ 64) mod 1000000007.
Proof.
  split; [ lia | split; [ lia | ] ].
  apply (smc_to_mont64_correct Emulated 5 1000000007); lia.
Defined.

(** Both builds of [smc_mont_reduce64] return the same word, whatever the
    operands: the four partial products with their carry give the high word
    of [m * n]. *)
Theorem smc_mont_reduce64_builds_agree x_lo x_hi n n_inv :
  0 <= n < 2 ^ 64 ->
  smc_mont_reduce64 Emulated x_lo x_hi n n_inv
  = smc_mont_reduce64 Int128 x_lo x_hi n n_inv.
Proof. apply reduce_builds_agree. Qed.

Lemma smc_mont_reduce64_builds_agree_witness :
  (0 <= 1000000007 < 2 ^ 64) /\
  smc_mont_reduce64 Emulated 12345678901234567 89 1000000007 4321
  = smc_mont_reduce64 Int128 12345678901234567 89 1000000007 4321.
Proof.
  split; [ lia | ].
  apply (smc_mont_reduce64_builds_agree 12345678901234567 89 1000000007 4321). lia.
Defined.

(** The emulated [smc_mont_mul64] reduces the low word of [a * b] together
    with its high word plus one exactly when the middle column of partial
    products overflows once and not through the cross products alone; the
    [__int128] build reduces the true words, and the two builds agree on
    operands below 2^32. *)
Theorem smc_mont_mul64_emulated_words a b n n_inv :
  0 <= a < 2 ^ 64 -> 0 <= b < 2 ^ 64 -> 0 <= n < 2 ^ 64 ->
  smc_mont_mul64 Int128 a b n n_inv
  = smc_mont_reduce64 Int128 (u64 (a * b)) (a * b / 2 ^ 64) n n_inv /\
  smc_mont_mul64 Emulated a b n n_inv
  = smc_mont_reduce64 Int128 (u64 (a * b))
      (a * b / 2 ^ 64 + Z.b2z (double_counted_carry a b)) n n_inv /\
  (a < 2 ^ 32 -> b < 2 ^ 32 ->
   smc_mont_mul64 Emulated a b n n_inv = smc_mont_mul64 Int128 a b n n_inv).
Proof.
  intros Ha Hb Hn. split; [ now apply mul_int128_words | ]. split.
  - rewrite mul_emulated_words by assumption. now apply reduce_builds_agree.
  - intros Ha' Hb'. apply mul_builds_agree_small; lia.
Qed.

Lemma smc_mont_mul64_emulated_words_witness :
  (0 <= 8589934591 < 2 ^ 64) /\ (0 <= 4294967295 < 2 ^ 64) /\
  (0 <= 18446744073709551557 < 2 ^ 64) /\
  double_counted_carry 8589934591 4294967295 = true /\
  smc_mont_mul64 Emulated 8589934591 4294967295 18446744073709551557 1
  = smc_mont_reduce64 Int128 (u64 (8589934591 * 4294967295))
      (8589934591 * 4294967295 / 2 ^ 64 + 1) 18446744073709551557 1.
Proof.
  split; [ lia | split; [ lia | split; [ lia | split; [ reflexivity | ] ] ] ].
  destruct (smc_mont_mul64_emulated_words 8589934591 4294967295
              18446744073709551557 1) as (_ & H & _); try lia.
  exact H.
Defined.

(** On a build that is exact for the odd modulus [n], [smc_mont_mul64] with
    [n_inv = smc_mont_inv64 n] multiplies Montgomery forms: from [u * 2^64]
    and [v * 2^64] modulo [n] it returns [u * v * 2^64] modulo [n]. *)
Theorem smc_mont_mul64_correct w n u v :
  1 < n < 2 ^ 64 -> Z.odd n = true -> exact_build w n ->
  smc_mont_mul64 w (mont_form n u) (mont_form n v) n (smc_mont_inv64 n)
  = mont_form n (u * v).
Proof. apply mul_repr_build. Qed.

Lemma smc_mont_mul64_correct_witness :
  (1 < 1000000007 < 2 ^ 64) /\ Z.odd 1000000007 = true /\
  exact_build Emulated 1000000007 /\
  smc_mont_mul64 Emulated (mont_form 1000000007 3) (mont_form 1000000007 5)
    1000000007 (smc_mont_inv64 1000000007) = mont_form 1000000007 (3 * 5).
Proof.
  assert (Hw : exact_build Emulated 1000000007) by (intros _; lia).
  split; [ lia | split; [ reflexivity | split; [ exact Hw | ] ] ].
  apply (smc_mont_mul64_correct Emulated 1000000007 3 5); [ lia | reflexivity | exact Hw ].
Defined.

(** On a build that is exact for the odd modulus [n >= 3], [smc_mont_pow64]
    started from [one = smc_mont_one64 n] returns the Montgomery form of
    [a^e] for every 64-bit exponent [e], zero included. *)
Theorem smc_mont_pow64_correct w n a e :
  3 <= n < 2 ^ 64 -> Z.odd n = true -> exact_build w n -> 0 <= e < 2 ^ 64 ->
  smc_mont_pow64 w (mont_form n a) e n (smc_mont_inv64 n) (smc_mont_one64 n)
  = Some (mont_form n (a ^ e)).
Proof.
  intros Hn Hodd Hw He. unfold smc_mont_pow64.
  destruct (mont_one64_facts n Hn Hodd) as (_ & Eone & _).
  assert (Eone' : smc_mont_one64 n = mont_form n 1)
    by (rewrite Eone; unfold mont_form; now rewrite Z.mul_1_l).
  rewrite Eone'.
  rewrite (mont_pow64_loop_spec w n (smc_mont_inv64 n)).
  - now rewrite Z.mul_1_l.
  - intros u v. apply mul_repr_build; [ lia | assumption | assumption ].
  - change (2 ^ Z.of_nat 64) with (2 ^ 64). exact He.
Qed.

Lemma smc_mont_pow64_correct_witness :
  (3 <= 1000000007 < 2 ^ 64) /\ Z.odd 1000000007 = true /\
  exact_build Emulated 1000000007 /\ (0 <= 560 < 2 ^ 64) /\
  smc_mont_pow64 Emulated (mont_form 1000000007 7) 560 1000000007
    (smc_mont_inv64 1000000007) (smc_mont_one64 1000000007)
  = Some (mont_form 1000000007 (7 ^ 560)).
Proof.
  assert (Hn : 3 <= 1000000007 < 2 ^ 64) by lia.
  assert (Hw : exact_build Emulated 1000000007) by (intros _; lia).
  assert (He : 0 <= 560 < 2 ^ 64) by lia.
  split; [ exact Hn | split; [ reflexivity | split; [ exact Hw | split; [ exact He | ] ] ] ].
  exact (smc_mont_pow64_correct Emulated 1000000007 7 560 Hn eq_refl Hw He).
Defined.

(** One round of [smc_mont_sprp64] with the Montgomery context of an odd
    [n >= 3], [n - 1 = d * 2^s], [d] odd, on a build that is exact for [n]
    (any [n] with [__int128], [n <= 2^32] emulated): it passes when
    [a mod n = 0] and otherwise exactly when [a^d = 1] or
    [a^(d*2^r) = n-1] modulo [n] for some [0 <= r < s]. *)
Theorem smc_mont_sprp64_correct w n a d s :
  3 <= n < 2 ^ 64 -> Z.odd n = true -> exact_build w n -> 0 <= a < 2 ^ 64 ->
  0 < d -> Z.odd d = true -> 0 <= s -> n - 1 = d * 2 ^ s ->
  let f := smc_mont_sprp64 w n a (smc_mont_inv64 n) (smc_mont_one64 n) in
  (a mod n = 0 -> f = Some true) /\
  (a mod n <> 0 ->
   exists b, f = Some b /\ (b = true <-> strong_probable_prime n a d s)).
Proof. apply mont_sprp64_spec. Qed.

Lemma smc_mont_sprp64_correct_witness :
  (3 <= 2047 < 2 ^ 64) /\ Z.odd 2047 = true /\ exact_build Int128 2047 /\
  (0 <= 2 < 2 ^ 64) /\ (0 < 1023) /\ Z.odd 1023 = true /\ (0 <= 1) /\
  2047 - 1 = 1023 * 2 ^ 1 /\ 2 mod 2047 <> 0 /\
  exists b, smc_mont_sprp64 Int128 2047 2 (smc_mont_inv64 2047) (smc_mont_one64 2047)
            = Some b /\
            (b = true <-> strong_probable_prime 2047 2 1023 1).
Proof.
  repeat (split; [ first [ lia | reflexivity | discriminate | apply int128_is_exact ] | ]).
  apply (smc_mont_sprp64_correct Int128 2047 2 1023 1);
    first [ lia | reflexivity | discriminate | apply int128_is_exact ].
Defined.


(** ** The decision functions *)

(** [smc_is_prime64] and [smc_is_prime64_wc] answer on every 64-bit input,
    on either build: no loop outruns the width of its counter and no
    remainder is taken modulo zero. *)
Theorem smc_is_prime64_total w n :
  0 <= n < 2 ^ 64 ->
  (exists b, smc_is_prime64 w n = Some b) /\
  (exists b, smc_is_prime64_wc w n = Some b).
Proof.
  intros Hn. split; [ now apply is_prime64_defined | now apply is_prime64_wc_defined ].
Qed.

Lemma smc_is_prime64_total_witness :
  (0 <= 18446744073709551557 < 2 ^ 64) /\
  (exists b, smc_is_prime64 Int128 18446744073709551557 = Some b) /\
  (exists b, smc_is_prime64_wc Int128 18446744073709551557 = Some b).
Proof.
  assert (Hn : 0 <= 18446744073709551557 < 2 ^ 64) by lia.
  split; [ exact Hn | ].
  exact (smc_is_prime64_total Int128 18446744073709551557 Hn).
Defined.

(** [smc_is_prime64] accepts every prime below 2^64 on an [__int128] build,
    and every prime below 2^32 on the emulated build: a [false] answer
    there is never about a prime. *)
Theorem smc_is_prime64_accepts_primes w p :
  Z.prime p -> p < 2 ^ 64 -> exact_build w p ->
  smc_is_prime64 w p = Some true.
Proof. apply is_prime64_prime. Qed.

Lemma smc_is_prime64_accepts_primes_witness :
  Z.prime 104729 /\ 104729 < 2 ^ 64 /\ exact_build Int128 104729 /\
  smc_is_prime64 Int128 104729 = Some true.
Proof.
  split; [ exact prime_104729 | split; [ lia | split; [ apply int128_is_exact | ] ] ].
  apply (smc_is_prime64_accepts_primes Int128 104729);
    [ exact prime_104729 | lia | apply int128_is_exact ].
Defined.

(** [smc_is_prime64_wc] accepts every prime below 2^64 on an [__int128]
    build, and every prime below 2^32 on the emulated build. *)
Theorem smc_is_prime64_wc_accepts_primes w p :
  Z.prime p -> p < 2 ^ 64 -> exact_build w p ->
  smc_is_prime64_wc w p = Some true.
Proof. apply is_prime64_wc_prime. Qed.

Lemma smc_is_prime64_wc_accepts_primes_witness :
  Z.prime 104729 /\ 104729 < 2 ^ 64 /\ exact_build Int128 104729 /\
  smc_is_prime64_wc Int128 104729 = Some true.
Proof.
  split; [ exact prime_104729 | split; [ lia | split; [ apply int128_is_exact | ] ] ].
  apply (smc_is_prime64_wc_accepts_primes Int128 104729);
    [ exact prime_104729 | lia | apply int128_is_exact ].
Defined.

(** Below 109561 = 331^2, [smc_is_prime64] is exact on either build: it
    answers, and it answers [true] exactly on the primes. *)
Theorem smc_is_prime64_exact_below_109561 w n :
  0 <= n < 109561 ->
  exists b, smc_is_prime64 w n = Some b /\ (b = true <-> Z.prime n).
Proof. apply is_prime64_small. Qed.

Lemma smc_is_prime64_exact_below_109561_witness :
  (0 <= 109559 < 109561) /\
  exists b, smc_is_prime64 Emulated 109559 = Some b /\ (b = true <-> Z.prime 109559).
Proof.
  split; [ lia | ].
  apply (smc_is_prime64_exact_below_109561 Emulated 109559). lia.
Defined.

(** On inputs below 2^32 the emulated build of [smc_is_prime64] and of
    [smc_is_prime64_wc] returns what the [__int128] build returns. *)
Theorem smc_is_prime64_builds_agree_below_2_32 n :
  0 <= n < 2 ^ 32 ->
  smc_is_prime64 Emulated n = smc_is_prime64 Int128 n /\
  smc_is_prime64_wc Emulated n = smc_is_prime64_wc Int128 n.
Proof.
  intros Hn. split;
    [ now apply is_prime64_builds_agree | now apply is_prime64_wc_builds_agree ].
Qed.

Lemma smc_is_prime64_builds_agree_below_2_32_witness :
  (0 <= 4294967291 < 2 ^ 32) /\
  smc_is_prime64 Emulated 4294967291 = smc_is_prime64 Int128 4294967291.
Proof.
  split; [ lia | ].
  destruct (smc_is_prime64_builds_agree_below_2_32 4294967291 ltac:(lia)) as [H _].
  exact H.
Defined.

(** [smc_is_prime32] answers on every 32-bit input and accepts every prime
    below 2^32. *)
Theorem smc_is_prime32_accepts_primes n :
  0 <= n < 2 ^ 32 ->
  (exists b, smc_is_prime32 n = Some b) /\
  (Z.prime n -> smc_is_prime32 n = Some true).
Proof.
  intros Hn. split; [ now apply is_prime32_defined | ].
  intros Hp. apply is_prime32_prime; [ exact Hp | lia ].
Qed.

Lemma smc_is_prime32_accepts_primes_witness :
  (0 <= 104729 < 2 ^ 32) /\ Z.prime 104729 /\ smc_is_prime32 104729 = Some true.
Proof.
  split; [ lia | split; [ exact prime_104729 | ] ].
  destruct (smc_is_prime32_accepts_primes 104729 ltac:(lia)) as [_ H].
  exact (H prime_104729).
Defined.

(** ** Navigation *)

(** With a budget of [n / 2] iterations, [smc_prev_prime64] returns 0 when
    [n < 2] and otherwise the largest value not above [n] that
    [smc_is_prime64] accepts, which is at least 2: on either build. *)
Theorem smc_prev_prime64_largest_accepted w fuel n :
  0 <= n < 2 ^ 64 -> (Z.to_nat (n / 2) <= fuel)%nat ->
  (n < 2 -> smc_prev_prime64 w fuel n = Some 0) /\
  (2 <= n ->
   exists r, smc_prev_prime64 w fuel n = Some r /\
     2 <= r <= n /\ smc_is_prime64 w r = Some true /\
     forall m, r < m <= n -> smc_is_prime64 w m = Some false).
Proof. apply prev_prime64_spec. Qed.

Lemma smc_prev_prime64_largest_accepted_witness :
  (0 <= 100 < 2 ^ 64) /\ (Z.to_nat (100 / 2) <= 50)%nat /\
  exists r, smc_prev_prime64 Emulated 50 100 = Some r /\
     2 <= r <= 100 /\ smc_is_prime64 Emulated r = Some true /\
     forall m, r < m <= 100 -> smc_is_prime64 Emulated m = Some false.
Proof.
  split; [ lia | split; [ vm_compute; lia | ] ].
  destruct (smc_prev_prime64_largest_accepted Emulated 50 100) as [_ H];
    [ lia | vm_compute; lia | ].
  apply H. lia.
Defined.

(** With a budget of [(2^64 - n) / 2 + 1] iterations, [smc_next_prime64]
    returns the least value from [n] up that [smc_is_prime64] accepts, and it
    returns 0 only when [smc_is_prime64] rejects every value from [n] to
    [2^64 - 1]: on either build. *)
Theorem smc_next_prime64_least_accepted w fuel n :
  0 <= n < 2 ^ 64 -> (Z.to_nat ((2 ^ 64 - n) / 2 + 1) <= fuel)%nat ->
  exists r, smc_next_prime64 w fuel n = Some r /\
    ((r = 0 /\ forall m, n <= m < 2 ^ 64 -> smc_is_prime64 w m = Some false)
     \/
     (n <= r < 2 ^ 64 /\ smc_is_prime64 w r = Some true /\
      forall m, n <= m < r -> smc_is_prime64 w m = Some false)).
Proof. apply next_prime64_spec. Qed.

Lemma smc_next_prime64_least_accepted_witness :
  (0 <= 18446744073709551600 < 2 ^ 64) /\
  (Z.to_nat ((2 ^ 64 - 18446744073709551600) / 2 + 1) <= 9)%nat /\
  exists r, smc_next_prime64 Int128 9 18446744073709551600 = Some r /\
    ((r = 0 /\ forall m, 18446744073709551600 <= m < 2 ^ 64 ->
                 smc_is_prime64 Int128 m = Some false)
     \/
     (18446744073709551600 <= r < 2 ^ 64 /\ smc_is_prime64 Int128 r = Some true /\
      forall m, 18446744073709551600 <= m < r -> smc_is_prime64 Int128 m = Some false)).
Proof.
  split; [ lia | split; [ vm_compute; lia | ] ].
  apply (smc_next_prime64_least_accepted Int128 9 18446744073709551600);
    [ lia | vm_compute; lia ].
Defined.

(** On a prime [p], [smc_next_prime64] and [smc_prev_prime64] return [p]
    itself, whatever the iteration budget: for every prime below 2^64 on an
    [__int128] build and every prime below 2^32 on the emulated build. *)
Theorem smc_navigation64_fixes_primes w fuel p :
  Z.prime p -> p < 2 ^ 64 -> exact_build w p ->
  smc_next_prime64 w fuel p = Some p /\ smc_prev_prime64 w fuel p = Some p.
Proof. apply navigation64_fixes_primes. Qed.

Lemma smc_navigation64_fixes_primes_witness :
  Z.prime 104729 /\ 104729 < 2 ^ 64 /\ exact_build Int128 104729 /\
  smc_next_prime64 Int128 0 104729 = Some 104729 /\
  smc_prev_prime64 Int128 0 104729 = Some 104729.
Proof.
  split; [ exact prime_104729 | split; [ lia | split; [ apply int128_is_exact | ] ] ].
  apply (smc_navigation64_fixes_primes Int128 0 104729);
    [ exact prime_104729 | lia | apply int128_is_exact ].
Defined.

(** Where [smc_is_prime64] is exact for all values up to [n], that is on an
    [__int128] build or for [n <= 2^32], [smc_prev_prime64] steps over no
    prime: every prime not above [n] is at most the value returned. *)
Theorem smc_prev_prime64_skips_no_prime w fuel n p :
  2 <= n < 2 ^ 64 -> (Z.to_nat (n / 2) <= fuel)%nat -> exact_build w n ->
  Z.prime p -> p <= n ->
  exists r, smc_prev_prime64 w fuel n = Some r /\ p <= r <= n.
Proof.
  intros Hn Hfuel Hw Hp Hpn.
  destruct (prev_prime64_spec w fuel n ltac:(lia) Hfuel) as [_ H].
  destruct (H ltac:(lia)) as (r & Hr & Hrange & _ & Hrej).
  exists r. split; [ exact Hr | ]. split; [ | lia ].
  destruct (Z_le_gt_dec p r) as [ | Hgt ]; [ assumption | exfalso ].
  assert (Hacc : smc_is_prime64 w p = Some true).
  { apply is_prime64_prime; [ exact Hp | lia | ].
    intros Hem. specialize (Hw Hem). lia. }
  rewrite Hrej in Hacc by lia. discriminate.
Qed.

Lemma smc_prev_prime64_skips_no_prime_witness :
  (2 <= 100 < 2 ^ 64) /\ (Z.to_nat (100 / 2) <= 50)%nat /\ exact_build Emulated 100 /\
  Z.prime 97 /\ 97 <= 100 /\
  exists r, smc_prev_prime64 Emulated 50 100 = Some r /\ 97 <= r <= 100.
Proof.
  assert (Hw : exact_build Emulated 100) by (intros _; lia).
  assert (Hp : Z.prime 97) by (apply is_prime_b_sound; reflexivity).
  split; [ lia | split; [ vm_compute; lia | split; [ exact Hw | split; [ exact Hp | split; [ lia | ] ] ] ] ].
  apply (smc_prev_prime64_skips_no_prime Emulated 50 100 97);
    [ lia | vm_compute; lia | exact Hw | exact Hp | lia ].
Defined.

(** For [2 <= n < 109561], [smc_prev_prime64] returns the largest prime not
    above [n], on either build. *)
Theorem smc_prev_prime64_exact_below_109561 w fuel n :
  2 <= n < 109561 -> (Z.to_nat (n / 2) <= fuel)%nat ->
  exists r, smc_prev_prime64 w fuel n = Some r /\
    Z.prime r /\ r <= n /\ forall p, Z.prime p -> p <= n -> p <= r.
Proof.
  intros Hn Hfuel.
  destruct (prev_prime64_spec w fuel n ltac:(lia) Hfuel) as [_ H].
  destruct (H ltac:(lia)) as (r & Hr & Hrange & Hacc & Hrej).
  exists r. split; [ exact Hr | ].
  assert (Hexact : forall m b, 0 <= m <= n -> smc_is_prime64 w m = Some b ->
                     (b = true <-> Z.prime m)).
  { intros m b Hm Hb.
    destruct (is_prime64_small w m ltac:(lia)) as [b' [Hb' Hiff]].
    rewrite Hb in Hb'. inversion Hb'; subst b'. exact Hiff. }
  split; [ apply (Hexact r true); [ lia | exact Hacc | reflexivity ] | ].
  split; [ lia | ].
  intros p Hp Hpn.
  destruct (Z_le_gt_dec p r) as [ | Hgt ]; [ assumption | exfalso ].
  pose proof (Z.prime_ge_2 p Hp).
  assert (Hf : false = true) by (apply (Hexact p false); [ lia | apply Hrej; lia | exact Hp ]).
  discriminate Hf.
Qed.

Lemma smc_prev_prime64_exact_below_109561_witness :
  (2 <= 100 < 109561) /\ (Z.to_nat (100 / 2) <= 50)%nat /\
  exists r, smc_prev_prime64 Int128 50 100 = Some r /\
    Z.prime r /\ r <= 100 /\ forall p, Z.prime p -> p <= 100 -> p <= r.
Proof.
  split; [ lia | split; [ vm_compute; lia | ] ].
  apply (smc_prev_prime64_exact_below_109561 Int128 50 100); [ lia | vm_compute; lia ].
Defined.

(** With a budget of [n / 2] iterations, [smc_prev_prime32] returns 0 when
    [n < 2] and otherwise the largest value not above [n] that
    [smc_is_prime32] accepts, which is at least 2. *)
Theorem smc_prev_prime32_largest_accepted fuel n :
  0 <= n < 2 ^ 32 -> (Z.to_nat (n / 2) <= fuel)%nat ->
  (n < 2 -> smc_prev_prime32 fuel n = Some 0) /\
  (2 <= n ->
   exists r, smc_prev_prime32 fuel n = Some r /\
     2 <= r <= n /\ smc_is_prime32 r = Some true /\
     forall m, r < m <= n -> smc_is_prime32 m = Some false).
Proof. apply prev_prime32_spec. Qed.

Lemma smc_prev_prime32_largest_accepted_witness :
  (0 <= 100 < 2 ^ 32) /\ (Z.to_nat (100 / 2) <= 50)%nat /\
  exists r, smc_prev_prime32 50 100 = Some r /\
     2 <= r <= 100 /\ smc_is_prime32 r = Some true /\
     forall m, r < m <= 100 -> smc_is_prime32 m = Some false.
Proof.
  split; [ lia | split; [ vm_compute; lia | ] ].
  destruct (smc_prev_prime32_largest_accepted 50 100) as [_ H];
    [ lia | vm_compute; lia | ].
  apply H. lia.
Defined.

(** With a budget of [(2^32 - n) / 2 + 1] iterations, [smc_next_prime32]
    returns the least value from [n] up that [smc_is_prime32] accepts, and it
    returns 0 only when [smc_is_prime32] rejects every value from [n] to
    [2^32 - 1]. *)
Theorem smc_next_prime32_least_accepted fuel n :
  0 <= n < 2 ^ 32 -> (Z.to_nat ((2 ^ 32 - n) / 2 + 1) <= fuel)%nat ->
  exists r, smc_next_prime32 fuel n = Some r /\
    ((r = 0 /\ forall m, n <= m < 2 ^ 32 -> smc_is_prime32 m = Some false)
     \/
     (n <= r < 2 ^ 32 /\ smc_is_prime32 r = Some true /\
      forall m, n <= m < r -> smc_is_prime32 m = Some false)).
Proof. apply next_prime32_spec. Qed.

Lemma smc_next_prime32_least_accepted_witness :
  (0 <= 4294967292 < 2 ^ 32) /\
  (Z.to_nat ((2 ^ 32 - 4294967292) / 2 + 1) <= 3)%nat /\
  exists r, smc_next_prime32 3 4294967292 = Some r /\
    ((r = 0 /\ forall m, 4294967292 <= m < 2 ^ 32 -> smc_is_prime32 m = Some false)
     \/
     (4294967292 <= r < 2 ^ 32 /\ smc_is_prime32 r = Some true /\
      forall m, 4294967292 <= m < r -> smc_is_prime32 m = Some false)).
Proof.
  split; [ lia | split; [ vm_compute; lia | ] ].
  apply (smc_next_prime32_least_accepted 3 4294967292); [ lia | vm_compute; lia ].
Defined.

(** On a prime [p] below 2^32, [smc_next_prime32] and [smc_prev_prime32]
    return [p] itself, whatever the iteration budget. *)
Theorem smc_navigation32_fixes_primes fuel p :
  Z.prime p -> p < 2 ^ 32 ->
  smc_next_prime32 fuel p = Some p /\ smc_prev_prime32 fuel p = Some p.
Proof. apply navigation32_fixes_primes. Qed.

Lemma smc_navigation32_fixes_primes_witness :
  Z.prime 104729 /\ 104729 < 2 ^ 32 /\
  smc_next_prime32 0 104729 = Some 104729 /\
  smc_prev_prime32 0 104729 = Some 104729.
Proof.
  split; [ exact prime_104729 | split; [ lia | ] ].
  apply (smc_navigation32_fixes_primes 0 104729); [ exact prime_104729 | lia ].
Defined.
